(** * GridLayoutPage: the widget store, the placement engine and the
      formula evaluator of the react-widget page.

    The development follows [GridLayoutPage.tsx]: the utility functions
    ([generateRandomScore], [generateRandomName], [evaluateFormula]) come
    first, then the event handlers of the component as functions on the
    component state, then the browser's gesture discipline as a step
    function, and finally the properties. *)

From Stdlib Require Import String Ascii.
From Stdlib Require Import ZArith NArith QArith Qround Qabs Qpower Qfield Lqa List Lia Bool.
From Stdlib Require Import PrimFloat FloatOps SpecFloat Uint63.
Import ListNotations.
Local Open Scope Z_scope.

(** ** JavaScript strings

    A JavaScript string is a sequence of UTF-16 code units. *)

Definition jsstring := list N.

(** Literals are written as Rocq strings, one code unit per character. *)
Definition js (s : string) : jsstring :=
  map N_of_ascii (list_ascii_of_string s).
Arguments js s%_string.

Fixpoint str_eqb (s t : jsstring) : bool :=
  match s, t with
  | [], [] => true
  | c :: s', d :: t' => N.eqb c d && str_eqb s' t'
  | _, _ => false
  end.

Definition inRange (lo hi c : N) : bool := (N.leb lo c && N.leb c hi)%bool.

Definition isLower (c : N) : bool := inRange 97 122 c.   (* a-z *)
Definition isUpper (c : N) : bool := inRange 65 90 c.    (* A-Z *)
Definition isDigit (c : N) : bool := inRange 48 57 c.    (* 0-9 *)

(** ECMAScript LineTerminator: LF, CR, LS, PS. *)
Definition isLineTerminator (c : N) : bool :=
  existsb (N.eqb c) [10; 13; 8232; 8233]%N.

(** ECMAScript WhiteSpace: TAB, VT, FF, SP, NBSP, ZWNBSP and the other
    space separators. *)
Definition isWhiteSpace (c : N) : bool :=
  (existsb (N.eqb c) [9; 11; 12; 32; 160; 5760; 8239; 8287; 12288; 65279]%N
   || inRange 8192 8202 c)%bool.

(** The regular-expression class [\s]. *)
Definition isRegExpSpace (c : N) : bool :=
  (isWhiteSpace c || isLineTerminator c)%bool.

(** Decimal numeral of a non-negative integer, as template literals and
    [toFixed] print it. *)
Fixpoint digitsRev (fuel : nat) (n : Z) : list N :=
  match fuel with
  | O => []
  | S fuel' =>
      if n <? 10 then [Z.to_N (48 + n)]
      else Z.to_N (48 + n mod 10) :: digitsRev fuel' (n / 10)
  end.

Definition decimal (n : Z) : jsstring :=
  rev (digitsRev (S (Z.to_nat (Z.log2 n))) n).

(** Value of a digit string, most significant digit first. *)
Definition digitsValue (ds : list N) : Z :=
  fold_left (fun acc c => 10 * acc + (Z.of_N c - 48)) ds 0.

(** ** JavaScript numbers

    The numbers of the formula evaluator are IEEE binary64 values, read
    through their exact decomposition [Prim2SF]. *)

Definition isNaN (v : float) : bool :=
  match Prim2SF v with
  | S754_nan => true
  | _ => false
  end.

(** Conversion of an integer below 2^53 in magnitude (exact). *)
Definition floatOfZ (z : Z) : float :=
  if z <? 0 then PrimFloat.opp (PrimFloat.of_uint63 (Uint63.of_Z (- z)))
  else PrimFloat.of_uint63 (Uint63.of_Z z).

(** Nearest integer to [m * 2^e * 10^f], the larger one on a tie
    ([Number.prototype.toFixed], step "let n be an integer for which
    n / 10^f - x is as close to zero as possible; if there are two such n,
    pick the larger n"). *)
Definition roundScaled (m e : Z) (f : nat) : Z :=
  if 0 <=? e then m * 2 ^ e * 10 ^ Z.of_nat f
  else (2 * m * 10 ^ Z.of_nat f + 2 ^ (- e)) / (2 * 2 ^ (- e)).

(** Integer part of [m * 2^e]. *)
Definition floorScaled (m e : Z) : Z :=
  if 0 <=? e then m * 2 ^ e else m / 2 ^ (- e).

(** The digits of [n / 10^f], a point, and the [f] digits of [n mod 10^f]
    padded with zeros on the left. *)
Definition padLeft (len : nat) (ds : jsstring) : jsstring :=
  repeat 48%N (len - length ds) ++ ds.

Definition fixedDigits (n : Z) (f : nat) : jsstring :=
  match f with
  | O => decimal n
  | _ => decimal (n / 10 ^ Z.of_nat f) ++ [46%N]
         ++ padLeft f (decimal (n mod 10 ^ Z.of_nat f))
  end.

(** [Number.prototype.toFixed].  A finite value of magnitude 10^21 or more
    is printed by [Number::toString] in exponential notation, which is not
    modelled: the result is [None] there. *)
Definition toFixed (v : float) (fractionDigits : nat) : option jsstring :=
  match Prim2SF v with
  | S754_nan => Some (js "NaN")
  | S754_infinity false => Some (js "Infinity")
  | S754_infinity true => Some (js "-Infinity")
  | S754_zero _ => Some (fixedDigits 0 fractionDigits)
  | S754_finite neg m e =>
      if 10 ^ 21 <=? floorScaled (Zpos m) e then None
      else Some ((if neg then js "-" else [])
                 ++ fixedDigits (roundScaled (Zpos m) e fractionDigits)
                                fractionDigits)
  end.

(** ** The formula evaluator *)

(** The class [[a-z0-9\s+\-*/().]] under the [i] flag. *)
Definition formulaChar (c : N) : bool :=
  (isLower c || isUpper c || isDigit c || isRegExpSpace c
   || existsb (N.eqb c) (js "+-*/()."))%bool.

(** [/^[a-z0-9\s+\-*/().]+$/i.test(formula)]: a non-empty string all of
    whose code units are in the class. *)
Definition formulaRegExpTest (formula : jsstring) : bool :=
  match formula with
  | [] => false
  | _ => forallb formulaChar formula
  end.

(** What building and calling [new Function(...params, body)] on [args]
    comes to, as far as [evaluateFormula] looks at it: an exception
    (thrown by the constructor, by the call, or by the conversion of the
    result to a number), or the result converted to a number.
    [Unmodelled] marks a body outside the fragment of JavaScript that
    [arithFunction] below understands. *)
Inductive completion :=
  | Throws
  | Returns (result : float)
  | Unmodelled.

Definition hostFunction := list jsstring -> jsstring -> list float -> completion.

Definition ErrorMarker : jsstring := js "Error".

(** [evaluateFormula], over the host's [Function] constructor.  [variables]
    is the [Record<string, number>] as its list of entries, in key order.
    [None]: the run leaves the modelled fragment. *)
Definition evaluateFormulaWith (newFunction : hostFunction)
    (formula : jsstring) (variables : list (jsstring * float))
    : option jsstring :=
  if negb (formulaRegExpTest formula) then Some ErrorMarker
  else
    let params := map fst variables in
    let args := map snd variables in
    match newFunction params (js "return " ++ formula) args with
    | Throws => Some ErrorMarker
    | Unmodelled => None
    | Returns result =>
        if isNaN result then Some ErrorMarker else toFixed result 2
    end.

(** *** The arithmetic fragment of JavaScript expressions

    Decimal literals, parameter names, [+ - * /] (binary and unary) and
    parentheses, separated by white space.  Everything else that the
    character class lets through (member access, calls, global names,
    keywords, [++], [--], [**], comments, regular-expression literals,
    exponents and other literal forms, line terminators, and any syntax
    error) is left [Unmodelled]. *)

Inductive token :=
  | TNum (v : float)
  | TId (s : jsstring)
  | TPlus | TMinus | TStar | TSlash | TLParen | TRParen.

Fixpoint takeWhile (p : N -> bool) (s : jsstring) : jsstring * jsstring :=
  match s with
  | c :: s' =>
      if p c then let (a, b) := takeWhile p s' in (c :: a, b) else ([], s)
  | [] => ([], [])
  end.

Definition startsWith (p : N -> bool) (s : jsstring) : bool :=
  match s with
  | c :: _ => p c
  | [] => false
  end.

Definition isIdentPart (c : N) : bool := (isLower c || isUpper c || isDigit c)%bool.

(** Value of the literal [ip.fp]: at most 15 digits, so that numerator
    and denominator are exact and the division rounds once. *)
Definition literalValue (ip fp : list N) : option float :=
  if (Nat.ltb 15 (length ip + length fp)
      || (Nat.ltb 1 (length ip) && startsWith (N.eqb 48) ip))%bool
  then None
  else
    let n := floatOfZ (digitsValue (ip ++ fp)) in
    match fp with
    | [] => Some n
    | _ => Some (n / floatOfZ (10 ^ Z.of_nat (length fp)))%float
    end.

Fixpoint lex (fuel : nat) (s : jsstring) : option (list token) :=
  match fuel with
  | O => None
  | S fuel' =>
      match s with
      | [] => Some []
      | c :: rest =>
          if isLineTerminator c then None
          else if isWhiteSpace c then lex fuel' rest
          else if isDigit c then
            let (ip, r1) := takeWhile isDigit s in
            let (fp, r2) :=
              match r1 with
              | 46%N :: r1' =>
                  if startsWith isDigit r1' then takeWhile isDigit r1'
                  else ([], r1)
              | _ => ([], r1)
              end in
            if startsWith (fun d => isIdentPart d || N.eqb d 46)%bool r2 then None
            else
              match literalValue ip fp, lex fuel' r2 with
              | Some v, Some ts => Some (TNum v :: ts)
              | _, _ => None
              end
          else if (isLower c || isUpper c)%bool then
            let (name, r) := takeWhile isIdentPart s in
            option_map (cons (TId name)) (lex fuel' r)
          else if N.eqb c 43 then                       (* + *)
            if startsWith (N.eqb 43) rest then None
            else option_map (cons TPlus) (lex fuel' rest)
          else if N.eqb c 45 then                       (* - *)
            if startsWith (N.eqb 45) rest then None
            else option_map (cons TMinus) (lex fuel' rest)
          else if N.eqb c 42 then                       (* * *)
            if startsWith (N.eqb 42) rest then None
            else option_map (cons TStar) (lex fuel' rest)
          else if N.eqb c 47 then                       (* / *)
            if startsWith (fun d => N.eqb d 47 || N.eqb d 42)%bool rest then None
            else option_map (cons TSlash) (lex fuel' rest)
          else if N.eqb c 40 then option_map (cons TLParen) (lex fuel' rest)
          else if N.eqb c 41 then option_map (cons TRParen) (lex fuel' rest)
          else None
      end
  end.

Inductive expr :=
  | ENum (v : float)
  | EVar (s : jsstring)
  | EPos (e : expr)
  | ENeg (e : expr)
  | EAdd (a b : expr)
  | ESub (a b : expr)
  | EMul (a b : expr)
  | EDiv (a b : expr).

(** Recursive descent; [level] 0 is AdditiveExpression, 1 is
    MultiplicativeExpression, 2 is UnaryExpression.  [parseRest] folds the
    operators of a level to the left. *)
Fixpoint parseLevel (fuel : nat) (level : nat) (ts : list token)
    : option (expr * list token) :=
  match fuel with
  | O => None
  | S fuel' =>
      match level with
      | O =>
          match parseLevel fuel' 1%nat ts with
          | Some (lhs, r) => parseRest fuel' 0%nat lhs r
          | None => None
          end
      | S O =>
          match parseLevel fuel' 2%nat ts with
          | Some (lhs, r) => parseRest fuel' 1%nat lhs r
          | None => None
          end
      | _ =>
          match ts with
          | TNum v :: r => Some (ENum v, r)
          | TId s :: r => Some (EVar s, r)
          | TPlus :: r =>
              match parseLevel fuel' 2%nat r with
              | Some (e, r') => Some (EPos e, r')
              | None => None
              end
          | TMinus :: r =>
              match parseLevel fuel' 2%nat r with
              | Some (e, r') => Some (ENeg e, r')
              | None => None
              end
          | TLParen :: r =>
              match parseLevel fuel' 0%nat r with
              | Some (e, TRParen :: r') => Some (e, r')
              | _ => None
              end
          | _ => None
          end
      end
  end
with parseRest (fuel : nat) (level : nat) (lhs : expr) (ts : list token)
    : option (expr * list token) :=
  match fuel with
  | O => None
  | S fuel' =>
      match level, ts with
      | O, TPlus :: r =>
          match parseLevel fuel' 1%nat r with
          | Some (rhs, r') => parseRest fuel' 0%nat (EAdd lhs rhs) r'
          | None => None
          end
      | O, TMinus :: r =>
          match parseLevel fuel' 1%nat r with
          | Some (rhs, r') => parseRest fuel' 0%nat (ESub lhs rhs) r'
          | None => None
          end
      | S O, TStar :: r =>
          match parseLevel fuel' 2%nat r with
          | Some (rhs, r') => parseRest fuel' 1%nat (EMul lhs rhs) r'
          | None => None
          end
      | S O, TSlash :: r =>
          match parseLevel fuel' 2%nat r with
          | Some (rhs, r') => parseRest fuel' 1%nat (EDiv lhs rhs) r'
          | None => None
          end
      | _, _ => Some (lhs, ts)
      end
  end.

Definition parseExpression (ts : list token) : option expr :=
  match parseLevel (4 * length ts + 4) 0%nat ts with
  | Some (e, []) => Some e
  | _ => None
  end.

Fixpoint lookupArg (env : list (jsstring * float)) (s : jsstring)
    : option float :=
  match env with
  | [] => None
  | (k, v) :: env' => if str_eqb k s then Some v else lookupArg env' s
  end.

(** Number::add, subtract, multiply and divide are the IEEE operations;
    a name that is not a parameter would be looked up in the global
    object, which is not modelled. *)
Fixpoint evalExpr (env : list (jsstring * float)) (e : expr) : option float :=
  match e with
  | ENum v => Some v
  | EVar s => lookupArg env s
  | EPos a => evalExpr env a
  | ENeg a => option_map PrimFloat.opp (evalExpr env a)
  | EAdd a b =>
      match evalExpr env a, evalExpr env b with
      | Some u, Some v => Some (u + v)%float
      | _, _ => None
      end
  | ESub a b =>
      match evalExpr env a, evalExpr env b with
      | Some u, Some v => Some (u - v)%float
      | _, _ => None
      end
  | EMul a b =>
      match evalExpr env a, evalExpr env b with
      | Some u, Some v => Some (u * v)%float
      | _, _ => None
      end
  | EDiv a b =>
      match evalExpr env a, evalExpr env b with
      | Some u, Some v => Some (u / v)%float
      | _, _ => None
      end
  end.

(** The reserved words of a function body in sloppy mode, as
    [new Function] parses it: none of them can name a parameter.  The
    words reserved in strict mode only ([let], [static], [implements],
    ...), [yield] and [await] outside generators and async functions,
    and [eval], [arguments], [async], [of], [get], [set] are ordinary
    names there. *)
Definition reservedWords : list jsstring :=
  map js
    ["break"; "case"; "catch"; "class"; "const"; "continue"; "debugger";
     "default"; "delete"; "do"; "else"; "enum"; "export"; "extends";
     "false"; "finally"; "for"; "function"; "if"; "import"; "in";
     "instanceof"; "new"; "null"; "return"; "super"; "switch"; "this";
     "throw"; "true"; "try"; "typeof"; "var"; "void"; "while"; "with"]%string.

(** A name made of letters and digits that starts with a letter. *)
Definition identifierName (p : jsstring) : bool :=
  (startsWith (fun c => isLower c || isUpper c)%bool p
   && forallb isIdentPart p)%bool.

Definition isReserved (p : jsstring) : bool := existsb (str_eqb p) reservedWords.

Definition plainParam (p : jsstring) : bool :=
  (identifierName p && negb (isReserved p))%bool.

Fixpoint distinct (l : list jsstring) : bool :=
  match l with
  | [] => true
  | s :: l' => (negb (existsb (str_eqb s) l') && distinct l')%bool
  end.

Fixpoint stripPrefix (p s : jsstring) : option jsstring :=
  match p, s with
  | [], _ => Some s
  | c :: p', d :: s' => if N.eqb c d then stripPrefix p' s' else None
  | _, [] => None
  end.

(** [new Function(...params, body)(...args)] on the arithmetic fragment:
    the parameters are distinct names; the constructor throws a
    SyntaxError when one of them is a reserved word; otherwise the body is
    [return] followed by an arithmetic expression over the parameters. *)
Definition arithFunction : hostFunction := fun params body args =>
  if negb (forallb identifierName params && distinct params
           && Nat.eqb (length params) (length args))%bool
  then Unmodelled
  else if existsb isReserved params then Throws
  else
    match stripPrefix (js "return ") body with
    | None => Unmodelled
    | Some src =>
        match lex (S (length src)) src with
        | None => Unmodelled
        | Some ts =>
            match parseExpression ts with
            | None => Unmodelled
            | Some e =>
                match evalExpr (combine params args) e with
                | Some v => Returns v
                | None => Unmodelled
                end
            end
        end
    end.

Definition evaluateFormula : jsstring -> list (jsstring * float) -> option jsstring :=
  evaluateFormulaWith arithFunction.

(** ** Constants and types of the component *)

Definition GRID_ROWS : Z := 10.
Definition GRID_COLS : Z := 8.
Definition CELL_SIZE : Z := 100.

Definition SIMPLE_NAMES : list jsstring :=
  map js ["cat"; "dog"; "tree"; "bird";
          "fish"; "star"; "moon"; "sun";
          "leaf"; "cloud"; "rain"; "wind"]%string.

(** The numbers kept in a widget's [score] field: an integer, or the NaN
    that [parseInt] returns when it finds no digits. *)
Inductive number :=
  | Int (z : Z)
  | NaN.

Inductive WidgetType := Score | Calculator.

Definition type_eqb (a b : WidgetType) : bool :=
  match a, b with
  | Score, Score | Calculator, Calculator => true
  | _, _ => false
  end.

Record LibraryItem := {
  item_id : jsstring;
  item_width : Z;
  item_height : Z;
  item_title : jsstring;
  item_type : WidgetType;
  item_score : option number;
  item_name : option jsstring;
  item_formula : option jsstring
}.

Record Widget := {
  id : jsstring;
  x : Z;
  y : Z;
  width : Z;
  height : Z;
  type : WidgetType;
  title : jsstring;
  name : jsstring;
  score : number;
  formula : jsstring
}.

(** [DraggingWidget extends Widget]: the fields of the dragged widget
    and the three fields of the gesture. *)
Record DraggingWidget := {
  dragged : Widget;
  isNew : bool;
  offsetX : Q;
  offsetY : Q
}.

(** The object spreads of the source, one per set of overwritten fields. *)
Definition withPosition (w : Widget) (cx cy : Z) : Widget :=
  {| id := id w; x := cx; y := cy; width := width w; height := height w;
     type := type w; title := title w; name := name w; score := score w;
     formula := formula w |}.

Definition withSize (w : Widget) (newWidth newHeight : Z) : Widget :=
  {| id := id w; x := x w; y := y w; width := newWidth; height := newHeight;
     type := type w; title := title w; name := name w; score := score w;
     formula := formula w |}.

Definition withName (w : Widget) (s : jsstring) : Widget :=
  {| id := id w; x := x w; y := y w; width := width w; height := height w;
     type := type w; title := title w; name := s; score := score w;
     formula := formula w |}.

Definition withScore (w : Widget) (n : number) : Widget :=
  {| id := id w; x := x w; y := y w; width := width w; height := height w;
     type := type w; title := title w; name := name w; score := n;
     formula := formula w |}.

Definition withFormula (w : Widget) (s : jsstring) : Widget :=
  {| id := id w; x := x w; y := y w; width := width w; height := height w;
     type := type w; title := title w; name := name w; score := score w;
     formula := s |}.

(** [widgets.map(w => w.id === widgetId ? f w : w)]. *)
Definition updateById (widgetId : jsstring) (f : Widget -> Widget)
    (ws : list Widget) : list Widget :=
  map (fun w => if str_eqb (id w) widgetId then f w else w) ws.

(** ** Utility functions *)

(** [Math.random()] is an argument [r], a rational in [0, 1). *)
Definition isRandom (r : Q) : bool := (Qle_bool 0 r && negb (Qle_bool 1 r))%bool.

Definition generateRandomScore (r : Q) : Z := Qfloor (r * 101).

Definition generateRandomName (widgets : list Widget) (r : Q) : jsstring :=
  let usedNames := map name widgets in
  let availableNames :=
    filter (fun s => negb (existsb (str_eqb s) usedNames)) SIMPLE_NAMES in
  match nth_error availableNames
          (Z.to_nat (Qfloor (r * inject_Z (Z.of_nat (length availableNames))))) with
  | Some (c :: s) => c :: s
  | _ => js "x"
  end.

(** [Math.max] and [Math.min] on two arguments. *)
Definition Math_max (a b : number) : number :=
  match a, b with
  | Int u, Int v => Int (Z.max u v)
  | _, _ => NaN
  end.

Definition Math_min (a b : number) : number :=
  match a, b with
  | Int u, Int v => Int (Z.min u v)
  | _, _ => NaN
  end.

(** [parseInt(s, 10)]: leading white space is skipped, then an optional
    sign, then the longest run of decimal digits; NaN when the run is
    empty. *)
Fixpoint dropWhile (p : N -> bool) (s : jsstring) : jsstring :=
  match s with
  | c :: s' => if p c then dropWhile p s' else s
  | [] => []
  end.

Definition parseInt (s : jsstring) : number :=
  let t := dropWhile isRegExpSpace s in
  let (negative, u) :=
    match t with
    | 45%N :: u => (true, u)
    | 43%N :: u => (false, u)
    | _ => (false, t)
    end in
  match fst (takeWhile isDigit u) with
  | [] => NaN
  | ds => Int (if negative then - digitsValue ds else digitsValue ds)
  end.

(** [String.prototype.toLowerCase], code unit by code unit.  Besides the
    ASCII capitals, two code units have a lower-case form that contains a
    letter of a-z: U+0130 (i followed by U+0307) and U+212A (k).  Every
    other code unit is left as it is here; its lower-case form lies
    outside a-z like itself, and the one caller deletes what is outside
    a-z. *)
Definition lowerUnit (c : N) : list N :=
  if isUpper c then [c + 32]%N
  else if N.eqb c 304 then [105; 775]%N
  else if N.eqb c 8490 then [107]%N
  else [c].

Definition toLowerCase (s : jsstring) : jsstring := flat_map lowerUnit s.

(** [value.toLowerCase().replace(/[^a-z]/g, '')]. *)
Definition sanitizeName (value : jsstring) : jsstring :=
  filter isLower (toLowerCase value).

(** ** Component state and event handlers *)

Record State := {
  widgets : list Widget;
  draggingWidget : option DraggingWidget
}.

Definition initialState : State :=
  {| widgets := []; draggingWidget := None |}.

Definition setWidgets (s : State) (ws : list Widget) : State :=
  {| widgets := ws; draggingWidget := draggingWidget s |}.

(** What a handler reads of a pointer event: the pointer position and the
    bounding rectangle of [e.currentTarget], in pixels. *)
Record PointerEvent := {
  clientX : Q;
  clientY : Q;
  rectLeft : Q;
  rectTop : Q
}.

(** The library of the render; the score of the first item is drawn at
    each render. *)
Definition libraryItems (r : Q) : list LibraryItem :=
  [ {| item_id := js "score"; item_width := 2; item_height := 1;
       item_title := js "Score"; item_type := Score;
       item_score := Some (Int (generateRandomScore r));
       item_name := Some []; item_formula := None |};
    {| item_id := js "calc"; item_width := 4; item_height := 2;
       item_title := js "Calculator"; item_type := Calculator;
       item_score := None; item_name := None; item_formula := Some [] |} ].

(** A library item seen as the widget part of a [DraggingWidget].  The
    fields that the item lacks are [undefined] in the source; [x], [y],
    [name] and [score] are overwritten before the object reaches the
    store, and [formula] is read through [widget.formula || '']. *)
Definition widgetOfItem (item : LibraryItem) : Widget :=
  {| id := item_id item; x := 0; y := 0;
     width := item_width item; height := item_height item;
     type := item_type item; title := item_title item;
     name := match item_name item with Some s => s | None => [] end;
     score := match item_score item with Some n => n | None => Int 0 end;
     formula := match item_formula item with Some s => s | None => [] end |}.

Definition handleDragStart (s : State) (e : PointerEvent) (widget : Widget)
    (new : bool) : State :=
  {| widgets := widgets s;
     draggingWidget :=
       Some {| dragged := widget; isNew := new;
               offsetX := clientX e - rectLeft e;
               offsetY := clientY e - rectTop e |} |}.

(** [Math.floor((client - origin - offset) / CELL_SIZE)]. *)
Definition cellOf (client origin offset : Q) : Z :=
  Qfloor ((client - origin - offset) / inject_Z CELL_SIZE).

(** [Math.max(0, Math.min(v, limit))]. *)
Definition clampCell (v limit : Z) : Z := Z.max 0 (Z.min v limit).

(** The cell computed at lines 112-117 and again at lines 140-145. *)
Definition candidateCell (e : PointerEvent) (d : DraggingWidget) : Z * Z :=
  (clampCell (cellOf (clientX e) (rectLeft e) (offsetX d))
             (GRID_COLS - width (dragged d)),
   clampCell (cellOf (clientY e) (rectTop e) (offsetY d))
             (GRID_ROWS - height (dragged d))).

(** The rectangle test shared by drag-over and drop. *)
Definition overlaps (cx cy w h : Z) (existing : Widget) : bool :=
  ((cx <? x existing + width existing)
   && (cx + w >? x existing)
   && (cy <? y existing + height existing)
   && (cy + h >? y existing))%bool.

Definition handleDragOver (s : State) (e : PointerEvent) : State :=
  match draggingWidget s with
  | None => s
  | Some d =>
      let (cx, cy) := candidateCell e d in
      let wouldOverlap :=
        existsb (fun existing =>
                   negb (str_eqb (id existing) (id (dragged d)))
                   && overlaps cx cy (width (dragged d)) (height (dragged d))
                               existing)%bool
                (widgets s) in
      if (negb wouldOverlap && negb (isNew d))%bool then
        setWidgets s
          (updateById (id (dragged d)) (fun w => withPosition w cx cy)
                      (widgets s))
      else s
  end.

(** [handleDrop]; [now] is the value of [Date.now()], a non-negative
    integer, [rName] and [rScore] the two values of [Math.random()]. *)
Definition handleDrop (s : State) (e : PointerEvent) (now : Z)
    (rName rScore : Q) : State :=
  match draggingWidget s with
  | None => s
  | Some d =>
      let (cx, cy) := candidateCell e d in
      let ws :=
        if isNew d then
          let newWidget :=
            {| id := js "widget-" ++ decimal now;
               x := cx; y := cy;
               width := width (dragged d); height := height (dragged d);
               type := type (dragged d); title := title (dragged d);
               name := match type (dragged d) with
                       | Score => generateRandomName (widgets s) rName
                       | Calculator => []
                       end;
               score := match type (dragged d) with
                        | Score => Int (generateRandomScore rScore)
                        | Calculator => Int 0
                        end;
               formula := formula (dragged d) |} in
          let wouldOverlap :=
            existsb (overlaps cx cy (width newWidget) (height newWidget))
                    (widgets s) in
          if negb wouldOverlap then widgets s ++ [newWidget] else widgets s
        else widgets s in
      {| widgets := ws; draggingWidget := None |}
  end.

(** The closure of [handleResize]: the widget as it was at mouse-down and
    the pointer position then. *)
Record ResizeGesture := {
  resized : Widget;
  startX : Q;
  startY : Q
}.

(** [handleResize] registers the listeners unless the widget is a
    calculator. *)
Definition handleResize (clientX0 clientY0 : Q) (widget : Widget)
    : option ResizeGesture :=
  match type widget with
  | Calculator => None
  | Score => Some {| resized := widget; startX := clientX0; startY := clientY0 |}
  end.

Definition handleMouseMove (g : ResizeGesture) (clientX1 clientY1 : Q)
    (prev : list Widget) : list Widget :=
  let deltaX := Qfloor ((clientX1 - startX g) / inject_Z CELL_SIZE) in
  let deltaY := Qfloor ((clientY1 - startY g) / inject_Z CELL_SIZE) in
  let newWidth :=
    Z.max 2 (Z.min (width (resized g) + deltaX) (GRID_COLS - x (resized g))) in
  let newHeight :=
    Z.max 1 (Z.min (height (resized g) + deltaY) (GRID_ROWS - y (resized g))) in
  updateById (id (resized g)) (fun w => withSize w newWidth newHeight) prev.

(** [insertIntoFormula]; [textarea] is the element found by the query,
    as its value and its [selectionStart]. *)
Definition insertIntoFormula (ws : list Widget) (widgetId variable : jsstring)
    (textarea : option (jsstring * nat)) : list Widget :=
  match textarea with
  | None => ws
  | Some (value, cursorPos) =>
      let newFormula := firstn cursorPos value ++ variable ++ skipn cursorPos value in
      updateById widgetId (fun w => withFormula w newFormula) ws
  end.

Definition handleDelete (ws : list Widget) (widgetId : jsstring) : list Widget :=
  filter (fun w => negb (str_eqb (id w) widgetId)) ws.

(** The [onChange] handlers of the render, for the element of [widget]. *)
Definition onFormulaChange (ws : list Widget) (widget : Widget)
    (value : jsstring) : list Widget :=
  updateById (id widget) (fun w => withFormula w value) ws.

Definition onNameChange (ws : list Widget) (widget : Widget)
    (value : jsstring) : list Widget :=
  let newName := sanitizeName value in
  if forallb (fun w => str_eqb (id w) (id widget)
                       || negb (str_eqb (name w) newName))%bool ws
  then updateById (id widget) (fun w => withName w newName) ws
  else ws.

Definition onScoreChange (ws : list Widget) (widget : Widget)
    (value : jsstring) : list Widget :=
  updateById (id widget)
    (fun w => withScore w (Math_max (Int 0) (Math_min (Int 100) (parseInt value))))
    ws.

Definition onRandomClick (ws : list Widget) (widget : Widget) (r : Q)
    : list Widget :=
  updateById (id widget) (fun w => withScore w (Int (generateRandomScore r))) ws.

(** ** The page under the browser's gestures

    A drag runs from [dragstart] to [drop] (on the grid) or to its end
    elsewhere, and the browser delivers no other input event meanwhile; a
    resize runs from mouse-down on the handle to mouse-up, with the
    listeners of [handleResize] registered in between.  The component has
    no [dragend] handler, so [draggingWidget] outlives a drag that ends
    outside the grid; the gesture is what the browser knows.

    A drag of something else over the grid (selected text, a file) also
    reaches [handleDragOver] and [handleDrop]; it is not among the
    actions of [step], and the handlers are applied to the state directly
    where such a drag is looked at. *)

Inductive Gesture :=
  | Idle
  | Dragging
  | Resizing (g : ResizeGesture).

Record Page := {
  state : State;
  gesture : Gesture
}.

Definition initialPage : Page := {| state := initialState; gesture := Idle |}.

(** User actions; [i] is the position of the widget's element in the
    render of [widgets]. *)
Inductive Event :=
  | DragStartItem (k : nat) (r : Q) (e : PointerEvent)
  | DragStartWidget (i : nat) (e : PointerEvent)
  | DragOver (e : PointerEvent)
  | Drop (e : PointerEvent) (now : Z) (rName rScore : Q)
  | DragEnd
  | ResizeDown (i : nat) (clientX0 clientY0 : Q)
  | MouseMove (clientX1 clientY1 : Q)
  | MouseUp
  | DeleteClick (i : nat)
  | NameChange (i : nat) (value : jsstring)
  | ScoreChange (i : nat) (value : jsstring)
  | RandomClick (i : nat) (r : Q)
  | FormulaChange (i : nat) (value : jsstring)
  | InsertVariable (i j : nat) (cursorPos : nat).

(** [Date.now()] is taken to have advanced since every earlier drop: the
    identifier made from it is not in the store. *)
Definition freshId (ws : list Widget) (now : Z) : bool :=
  ((0 <=? now)
   && negb (existsb (fun w => str_eqb (id w) (js "widget-" ++ decimal now)) ws))%bool.

(** What the drop of a new item reads from the environment: a fresh
    [Date.now()] and two values of [Math.random()].  The drop of a widget
    of the store reads none of them. *)
Definition dropInputsOk (s : State) (now : Z) (rName rScore : Q) : bool :=
  match draggingWidget s with
  | Some d =>
      if isNew d then (isRandom rName && isRandom rScore && freshId (widgets s) now)%bool
      else true
  | None => true
  end.

Definition withWidgets (p : Page) (ws : list Widget) : Page :=
  {| state := setWidgets (state p) ws; gesture := gesture p |}.

(** An action on the element of the [i]-th widget, outside a drag. *)
Definition onWidget (p : Page) (i : nat) (enabled : Widget -> bool)
    (act : Widget -> list Widget) : option Page :=
  match gesture p, nth_error (widgets (state p)) i with
  | Dragging, _ => None
  | _, Some w => if enabled w then Some (withWidgets p (act w)) else None
  | _, None => None
  end.

(** One user action.  [None]: the action cannot take place in this state
    (no such element, an element that the render does not show for the
    widget's type, an action outside its gesture, or environment values
    outside their range). *)
Definition step (p : Page) (ev : Event) : option Page :=
  let s := state p in
  let ws := widgets s in
  match ev with
  | DragStartItem k r e =>
      match gesture p, nth_error (libraryItems r) k with
      | Idle, Some item =>
          if isRandom r then
            Some {| state := handleDragStart s e (widgetOfItem item) true;
                    gesture := Dragging |}
          else None
      | _, _ => None
      end
  | DragStartWidget i e =>
      match gesture p, nth_error ws i with
      | Idle, Some w =>
          Some {| state := handleDragStart s e w false; gesture := Dragging |}
      | _, _ => None
      end
  | DragOver e =>
      match gesture p with
      | Dragging => Some {| state := handleDragOver s e; gesture := Dragging |}
      | _ => None
      end
  | Drop e now rName rScore =>
      match gesture p with
      | Dragging =>
          if dropInputsOk s now rName rScore then
            Some {| state := handleDrop s e now rName rScore; gesture := Idle |}
          else None
      | _ => None
      end
  | DragEnd =>
      match gesture p with
      | Dragging => Some {| state := s; gesture := Idle |}
      | _ => None
      end
  | ResizeDown i clientX0 clientY0 =>
      match gesture p, nth_error ws i with
      | Idle, Some w =>
          match type w, handleResize clientX0 clientY0 w with
          | Score, Some g => Some {| state := s; gesture := Resizing g |}
          | _, _ => None
          end
      | _, _ => None
      end
  | MouseMove clientX1 clientY1 =>
      match gesture p with
      | Resizing g => Some (withWidgets p (handleMouseMove g clientX1 clientY1 ws))
      | _ => None
      end
  | MouseUp =>
      match gesture p with
      | Resizing _ => Some {| state := s; gesture := Idle |}
      | _ => None
      end
  | DeleteClick i =>
      onWidget p i (fun _ => true) (fun w => handleDelete ws (id w))
  | NameChange i value =>
      onWidget p i (fun w => type_eqb (type w) Score)
               (fun w => onNameChange ws w value)
  | ScoreChange i value =>
      onWidget p i (fun w => type_eqb (type w) Score)
               (fun w => onScoreChange ws w value)
  | RandomClick i r =>
      onWidget p i (fun w => type_eqb (type w) Score && isRandom r)%bool
               (fun w => onRandomClick ws w r)
  | FormulaChange i value =>
      onWidget p i (fun w => type_eqb (type w) Calculator)
               (fun w => onFormulaChange ws w value)
  | InsertVariable i j cursorPos =>
      match nth_error ws j with
      | Some v =>
          onWidget p i
            (fun w => type_eqb (type w) Calculator && type_eqb (type v) Score
                      && negb (str_eqb (name v) []))%bool
            (fun w => insertIntoFormula ws (id w) (name v)
                        (Some (formula w, cursorPos)))
      | None => None
      end
  end.

(** A sequence of user actions, from left to right. *)
Fixpoint run (p : Page) (evs : list Event) : option Page :=
  match evs with
  | [] => Some p
  | ev :: evs' =>
      match step p ev with
      | Some p' => run p' evs'
      | None => None
      end
  end.

Definition isMouseMove (ev : Event) : bool :=
  match ev with
  | MouseMove _ _ => true
  | _ => false
  end.

(** ** Properties of the store *)

(** The boundary law of the data model. *)
Definition inGrid (w : Widget) : Prop :=
  0 <= x w /\ 0 <= y w /\
  x w + width w <= GRID_COLS /\ y w + height w <= GRID_ROWS.

Definition minSize (w : Widget) : Prop := 2 <= width w /\ 1 <= height w.

(** The grid cells of a widget, and two widgets sharing none. *)
Definition covers (w : Widget) (cx cy : Z) : Prop :=
  x w <= cx < x w + width w /\ y w <= cy < y w + height w.

Definition cellsDisjoint (a b : Widget) : Prop :=
  forall cx cy, ~ (covers a cx cy /\ covers b cx cy).

Definition rectsOverlap (a b : Widget) : bool :=
  overlaps (x a) (y a) (width a) (height a) b.

(** The placement invariant: widgets at two different positions of the
    store have disjoint rectangles. *)
Definition placementInvariant (ws : list Widget) : Prop :=
  forall i j a b, i <> j ->
    nth_error ws i = Some a -> nth_error ws j = Some b ->
    rectsOverlap a b = false /\ cellsDisjoint a b.

(** The collision test in the words of the placement contract. *)
Definition collides (cx cy w h : Z) (ws : list Widget) : Prop :=
  exists E, In E ws /\
    cx < x E + width E /\ cx + w > x E /\
    cy < y E + height E /\ cy + h > y E.

(** A score kept in [0, 100]. *)
Definition scoreInRange (n : number) : Prop :=
  match n with
  | Int z => 0 <= z <= 100
  | NaN => False
  end.

(** A score edit whose text [parseInt] reads as an integer. *)
Definition parsesScore (ev : Event) : bool :=
  match ev with
  | ScoreChange _ value =>
      match parseInt value with
      | Int _ => true
      | NaN => false
      end
  | _ => true
  end.

Definition scoresInRange (ws : list Widget) : Prop :=
  Forall (fun w => scoreInRange (score w)) ws.

(** [l] is [m] with some elements erased, the others in their order. *)
Inductive Subseq {A : Type} : list A -> list A -> Prop :=
  | Subseq_nil : Subseq [] []
  | Subseq_keep a l m : Subseq l m -> Subseq (a :: l) (a :: m)
  | Subseq_drop a l m : Subseq l m -> Subseq l (a :: m).

(** Invariants carried along a run. *)
Definition uniqueIds (ws : list Widget) : Prop := NoDup (map id ws).

Definition noOverlap (ws : list Widget) : Prop :=
  forall a b, In a ws -> In b ws -> id a <> id b -> rectsOverlap a b = false.

Definition sameBox (a b : Widget) : Prop :=
  id a = id b /\ x a = x b /\ y a = y b /\
  width a = width b /\ height a = height b.

Definition dragOk (ws : list Widget) (d : DraggingWidget) : Prop :=
  1 <= width (dragged d) <= GRID_COLS /\
  1 <= height (dragged d) <= GRID_ROWS /\
  minSize (dragged d) /\
  (isNew d = false ->
   forall w, In w ws -> id w = id (dragged d) ->
     width w = width (dragged d) /\ height w = height (dragged d)).

Definition resizeOk (ws : list Widget) (g : ResizeGesture) : Prop :=
  0 <= x (resized g) <= GRID_COLS - 2 /\
  0 <= y (resized g) <= GRID_ROWS - 1 /\
  forall w, In w ws -> id w = id (resized g) ->
    x w = x (resized g) /\ y w = y (resized g).

Definition gestureOk (p : Page) : Prop :=
  match gesture p with
  | Idle => True
  | Dragging =>
      exists d, draggingWidget (state p) = Some d /\ dragOk (widgets (state p)) d
  | Resizing g => resizeOk (widgets (state p)) g
  end.

Definition pageInv (p : Page) : Prop :=
  uniqueIds (widgets (state p)) /\
  Forall (fun w => inGrid w /\ minSize w) (widgets (state p)) /\
  gestureOk p.

(** Every action on a widget's element outside the resize and drag
    handlers is of that kind. *)
Definition boxKeeping (ws ws' : list Widget) : Prop :=
  (uniqueIds ws -> uniqueIds ws') /\
  (forall w', In w' ws' -> exists w, In w ws /\ sameBox w' w).

(** ** Properties of the formula evaluator *)

(** The characters that the evaluator accepts, in the words of its
    contract: a letter, a digit, one of [+ - * / ( ) .], or white space. *)
Definition allowedInFormula (c : N) : Prop :=
  (65 <= c <= 90)%N \/ (97 <= c <= 122)%N \/ (48 <= c <= 57)%N \/
  In c [43; 45; 42; 47; 40; 41; 46]%N \/ isRegExpSpace c = true.

Definition isDigitCode (c : N) : Prop := (48 <= c <= 57)%N.

(** The exact value of a finite number. *)
Definition exactValue (v : float) : option Q :=
  match Prim2SF v with
  | S754_zero _ => Some 0%Q
  | S754_finite neg m e =>
      Some (inject_Z (if neg then Zneg m else Zpos m) * 2 ^ e)%Q
  | _ => None
  end.

(** [s] shows [q] with exactly two decimal places: an optional minus
    sign, a non-empty run of digits, a point and two digits, the digits
    reading the integer nearest to 100 times the magnitude of [q] (the
    larger one when two are as near). *)
Definition formatsToTwoDecimals (q : Q) (s : jsstring) : Prop :=
  exists ip d1 d2,
    s = (if Qle_bool 0 q then [] else js "-") ++ ip ++ [46; d1; d2]%N /\
    ip <> [] /\
    Forall isDigitCode (ip ++ [d1; d2]) /\
    (inject_Z (digitsValue (ip ++ [d1; d2])) <= Qabs q * 100 + (1 # 2)
     /\ Qabs q * 100 + (1 # 2) < inject_Z (digitsValue (ip ++ [d1; d2]) + 1))%Q.

(** Some string with two decimal places, whatever the value. *)
Definition hasTwoDecimals (s : jsstring) : Prop :=
  exists sign ip d1 d2,
    s = sign ++ ip ++ [46; d1; d2]%N /\ (sign = [] \/ sign = js "-") /\
    ip <> [] /\ Forall isDigitCode (ip ++ [d1; d2]).

(** ** Sample runs *)

(** A pointer event whose target has its corner at the origin. *)
Definition pointerAt (px py : Z) : PointerEvent :=
  {| clientX := inject_Z px; clientY := inject_Z py;
     rectLeft := 0; rectTop := 0 |}.

(** Two score widgets dropped side by side: cells (0,0)-(1,0) and
    (2,0)-(3,0). *)
Definition twoScores : list Event :=
  [ DragStartItem 0 (1 # 2) (pointerAt 0 0);
    Drop (pointerAt 10 10) 1000 0 (1 # 2);
    DragStartItem 0 (1 # 2) (pointerAt 0 0);
    Drop (pointerAt 210 10) 2000 0 (1 # 2) ].

(** The first one dragged over the second (refused) and then one row
    down (accepted); the drag is still under way. *)
Definition dragFirstDown : list Event :=
  twoScores ++
  [ DragStartWidget 0 (pointerAt 5 5);
    DragOver (pointerAt 150 10);
    DragOver (pointerAt 5 120) ].

(** The first one resized two cells to the right. *)
Definition resizeFirstWider : list Event :=
  twoScores ++
  [ ResizeDown 0 190 90; MouseMove 420 90; MouseUp ].

(** A score widget and a calculator below it. *)
Definition scoreAndCalculator : list Event :=
  [ DragStartItem 0 (1 # 2) (pointerAt 0 0);
    Drop (pointerAt 10 10) 1000 0 (1 # 2);
    DragStartItem 1 (1 # 2) (pointerAt 0 0);
    Drop (pointerAt 10 110) 2000 0 (1 # 2) ].

Definition sampleScore (k : Z) (nm : string) (cx cy : Z) : Widget :=
  {| id := js "widget-" ++ decimal k; x := cx; y := cy; width := 2; height := 1;
     type := Score; title := js "Score"; name := js nm; score := Int 50;
     formula := [] |}.

Definition sampleCalculator (k : Z) (cx cy : Z) : Widget :=
  {| id := js "widget-" ++ decimal k; x := cx; y := cy; width := 4; height := 2;
     type := Calculator; title := js "Calculator"; name := []; score := Int 0;
     formula := [] |}.

(** ** The result line of a calculator *)

(** [Object.fromEntries]: an entry whose key is already present replaces
    the value and keeps the place of the key. *)
Fixpoint setEntry (k : jsstring) (v : float) (o : list (jsstring * float))
    : list (jsstring * float) :=
  match o with
  | [] => [(k, v)]
  | (k', v') :: o' =>
      if str_eqb k' k then (k', v) :: o' else (k', v') :: setEntry k v o'
  end.

Definition fromEntries (entries : list (jsstring * float))
    : list (jsstring * float) :=
  fold_left (fun o kv => setEntry (fst kv) (snd kv) o) entries [].

(** [Number(w.score) || 0], for scores below 2^53 in magnitude. *)
Definition scoreValue (n : number) : float :=
  match n with
  | Int z => floatOfZ z
  | NaN => floatOfZ 0
  end.

(** The named score widgets, as the render filters them at lines 318
    and 333. *)
Definition namedScores (ws : list Widget) : list Widget :=
  filter (fun w => type_eqb (type w) Score && negb (str_eqb (name w) []))%bool ws.

Definition formulaVariables (ws : list Widget) : list (jsstring * float) :=
  fromEntries (map (fun w => (name w, scoreValue (score w))) (namedScores ws)).

(** The text after "Result:" in a calculator:
    [evaluateFormula(widget.formula || '0', ...)]. *)
Definition resultLine (ws : list Widget) (widget : Widget) : option jsstring :=
  evaluateFormula (match formula widget with [] => js "0" | f => f end)
                  (formulaVariables ws).

(** ** Further properties *)

(** The rectangle test as a proposition. *)
Definition overlapping (cx cy w h : Z) (E : Widget) : Prop :=
  cx < x E + width E /\ cx + w > x E /\ cy < y E + height E /\ cy + h > y E.

(** Calculators keep the size of the library item. *)
Definition calculatorSize (w : Widget) : Prop :=
  type w = Calculator -> width w = 4 /\ height w = 2.

Definition kindInv (p : Page) : Prop :=
  Forall calculatorSize (widgets (state p)) /\
  match gesture p with
  | Idle => True
  | Dragging =>
      exists d, draggingWidget (state p) = Some d /\
                (isNew d = true -> calculatorSize (dragged d))
  | Resizing g =>
      forall w, In w (widgets (state p)) -> id w = id (resized g) -> type w = Score
  end.

(** Two score widgets with different identifiers do not share a
    non-empty name. *)
Definition scoreNamesDistinct (ws : list Widget) : Prop :=
  forall a b, In a ws -> In b ws -> id a <> id b ->
    type a = Score -> type b = Score -> name a <> [] -> name a <> name b.

(** A run during which the store holds fewer than 12 widgets before
    every action. *)
Fixpoint runBelow12 (p : Page) (evs : list Event) : option Page :=
  match evs with
  | [] => Some p
  | ev :: evs' =>
      if Nat.ltb (length (widgets (state p))) 12 then
        match step p ev with
        | Some p' => runBelow12 p' evs'
        | None => None
        end
      else None
  end.

Definition isDropOrDelete (ev : Event) : bool :=
  match ev with
  | Drop _ _ _ _ | DeleteClick _ => true
  | _ => false
  end.

(** [ws'] is [ws] with the widget at position [i] moved, at most. *)
Definition movedOnly (i : nat) (ws ws' : list Widget) : Prop :=
  length ws' = length ws /\
  forall j v, nth_error ws j = Some v ->
    if Nat.eqb j i then exists cx cy, nth_error ws' j = Some (withPosition v cx cy)
    else nth_error ws' j = Some v.

(** The pointer events of a drag that picks the widget [w] up at pixel
    ([px], [py]): [grabAt] on the widget's element, whose corner lies
    ([ox], [oy]) pixels from the corner of the widget's cell, and
    [hoverAt] on the grid after the pointer has moved by ([dx], [dy]);
    ([gx], [gy]) is the corner of the grid. *)
Definition grabAt (w : Widget) (px py gx gy ox oy : Q) : PointerEvent :=
  {| clientX := px; clientY := py;
     rectLeft := gx + inject_Z (CELL_SIZE * x w) + ox;
     rectTop := gy + inject_Z (CELL_SIZE * y w) + oy |}.

Definition hoverAt (px py gx gy dx dy : Q) : PointerEvent :=
  {| clientX := px + dx; clientY := py + dy; rectLeft := gx; rectTop := gy |}.

(** One widget per name of the list, for the examples. *)
Definition twelveScores : list Widget :=
  map (fun s => withName (sampleScore 1 "a" 0 0) s) SIMPLE_NAMES.

(** A number that is plus or minus infinity. *)
Definition infinite (v : float) (negative : bool) : Prop :=
  Prim2SF v = S754_infinity negative.

(** A whole-pixel coordinate of the size of a screen. *)
Definition screenPixel (z : Z) : Prop := - 2 ^ 30 <= z <= 2 ^ 30.

(** A score widget is dropped, dragged until the drag ends outside the
    grid, and then made 6 cells wide. *)
Definition staleDragThenResize : list Event :=
  [ DragStartItem 0 (1 # 2) (pointerAt 0 0);
    Drop (pointerAt 10 10) 1000 0 (1 # 2);
    DragStartWidget 0 (pointerAt 5 5);
    DragEnd;
    ResizeDown 0 190 90; MouseMove 590 90; MouseUp ].

(** * Proofs *)

(** ** Strings and updates by identifier *)

Lemma str_eqb_eq (s t : jsstring) : str_eqb s t = true <-> s = t.
Proof.
  revert t; induction s as [|c s IH]; intros [|d t]; simpl;
    try (split; [discriminate | congruence]); try tauto.
  rewrite andb_true_iff, N.eqb_eq, IH.
  split; [intros [-> ->]; reflexivity | intros E; injection E; auto].
Qed.

Lemma str_eqb_refl (s : jsstring) : str_eqb s s = true.
Proof. apply str_eqb_eq; reflexivity. Qed.

Lemma str_eqb_neq (s t : jsstring) : str_eqb s t = false <-> s <> t.
Proof.
  rewrite <- str_eqb_eq. destruct (str_eqb s t); split; congruence.
Qed.

Ltac str_cases s t :=
  let E := fresh "E" in
  destruct (str_eqb s t) eqn:E;
  [apply str_eqb_eq in E | apply str_eqb_neq in E].

Lemma updateById_ids k f ws :
  (forall w, id (f w) = id w) -> map id (updateById k f ws) = map id ws.
Proof.
  intros Hf. unfold updateById. rewrite map_map. apply map_ext.
  intros w. destruct (str_eqb (id w) k); auto.
Qed.

Lemma updateById_In k f ws w' :
  In w' (updateById k f ws) ->
  exists w, In w ws /\ ((id w = k /\ w' = f w) \/ (id w <> k /\ w' = w)).
Proof.
  unfold updateById. rewrite in_map_iff. intros (w & E & Hin).
  exists w; split; auto. str_cases (id w) k; auto.
Qed.

Lemma updateById_absent k f ws :
  (forall w, In w ws -> id w <> k) -> updateById k f ws = ws.
Proof.
  intros H. unfold updateById. rewrite <- (map_id ws) at 2.
  apply map_ext_in. intros w Hw. apply H in Hw.
  apply str_eqb_neq in Hw. rewrite Hw. reflexivity.
Qed.

Lemma updateById_nth k f ws i w :
  nth_error ws i = Some w ->
  nth_error (updateById k f ws) i
  = Some (if str_eqb (id w) k then f w else w).
Proof.
  intros H. unfold updateById. rewrite nth_error_map, H. reflexivity.
Qed.

Lemma uniqueIds_same ws a b :
  uniqueIds ws -> In a ws -> In b ws -> id a = id b -> a = b.
Proof.
  unfold uniqueIds. induction ws as [|w ws IH]; simpl; [tauto|].
  intros Hnd [<-|Ha] [<-|Hb] E; auto; inversion Hnd; subst.
  - exfalso. apply H1. rewrite E. apply in_map; assumption.
  - exfalso. apply H1. rewrite <- E. apply in_map; assumption.
  - apply IH; assumption.
Qed.

Lemma uniqueIds_nth ws i j a b :
  uniqueIds ws -> nth_error ws i = Some a -> nth_error ws j = Some b ->
  i <> j -> id a <> id b.
Proof.
  unfold uniqueIds. intros Hnd Ha Hb Hij E.
  apply Hij. apply (proj1 (NoDup_nth_error (map id ws)) Hnd).
  - apply nth_error_Some. rewrite nth_error_map, Ha. discriminate.
  - rewrite !nth_error_map, Ha, Hb. simpl. congruence.
Qed.

Lemma uniqueIds_filter p ws : uniqueIds ws -> uniqueIds (filter p ws).
Proof.
  unfold uniqueIds. induction ws as [|w ws IH]; simpl; auto.
  intros Hnd. inversion Hnd; subst. destruct (p w); simpl; auto.
  constructor; auto. intros Hin. apply H1.
  apply in_map_iff in Hin. destruct Hin as (v & E & Hv).
  apply filter_In in Hv. rewrite <- E. apply in_map. tauto.
Qed.

(** ** Geometry *)

Lemma overlaps_false_iff cx cy w h E :
  overlaps cx cy w h E = false <->
  ~ (cx < x E + width E /\ cx + w > x E /\ cy < y E + height E /\ cy + h > y E).
Proof.
  unfold overlaps.
  destruct (Z.ltb_spec cx (x E + width E)), (Z.gtb_spec (cx + w) (x E)),
    (Z.ltb_spec cy (y E + height E)), (Z.gtb_spec (cy + h) (y E));
    simpl; split; intros; try discriminate; try reflexivity; try lia;
    exfalso; tauto.
Qed.

Lemma overlaps_true_iff cx cy w h E :
  overlaps cx cy w h E = true <->
  (cx < x E + width E /\ cx + w > x E /\ cy < y E + height E /\ cy + h > y E).
Proof.
  unfold overlaps. rewrite !andb_true_iff, !Z.ltb_lt, !Z.gtb_gt. tauto.
Qed.

Lemma rectsOverlap_sym a b : rectsOverlap a b = rectsOverlap b a.
Proof.
  unfold rectsOverlap.
  destruct (overlaps (x b) (y b) (width b) (height b) a) eqn:E.
  - apply overlaps_true_iff. apply overlaps_true_iff in E. lia.
  - apply overlaps_false_iff. apply overlaps_false_iff in E. lia.
Qed.

Lemma rectsOverlap_disjoint a b : rectsOverlap a b = false -> cellsDisjoint a b.
Proof.
  unfold rectsOverlap, cellsDisjoint, covers. intros H cx cy.
  apply overlaps_false_iff in H. lia.
Qed.

Lemma rectsOverlap_sameBox a a' b b' :
  sameBox a' a -> sameBox b' b -> rectsOverlap a' b' = rectsOverlap a b.
Proof.
  unfold sameBox, rectsOverlap, overlaps.
  intros (_ & -> & -> & -> & ->) (_ & -> & -> & -> & ->). reflexivity.
Qed.

Lemma clampCell_range v limit :
  0 <= limit -> 0 <= clampCell v limit <= limit.
Proof. unfold clampCell. lia. Qed.

Lemma existsb_false_In {A} (p : A -> bool) l a :
  existsb p l = false -> In a l -> p a = false.
Proof.
  intros H Hin. destruct (p a) eqn:E; auto.
  assert (existsb p l = true) by (apply existsb_exists; eauto). congruence.
Qed.

(** ** The invariant of the page *)

Lemma Forall_updateById (P : Widget -> Prop) k f ws :
  Forall P ws ->
  (forall w, In w ws -> id w = k -> P w -> P (f w)) ->
  Forall P (updateById k f ws).
Proof.
  intros HP Hf. apply Forall_forall. intros w' Hin.
  apply updateById_In in Hin. destruct Hin as (w & Hw & [[E ->]|[_ ->]]);
    rewrite Forall_forall in HP; auto.
Qed.

Lemma sameBox_refl w : sameBox w w.
Proof. unfold sameBox; tauto. Qed.

Lemma sameBox_inGrid a b : sameBox a b -> inGrid b /\ minSize b -> inGrid a /\ minSize a.
Proof.
  unfold sameBox, inGrid, minSize. intros (_ & -> & -> & -> & ->). tauto.
Qed.

(** A new store whose widgets are those of the old one, up to the fields
    outside identifier and rectangle, keeps the invariant. *)
Lemma pageInv_sameBox p ws' :
  pageInv p -> uniqueIds ws' ->
  (forall w', In w' ws' -> exists w, In w (widgets (state p)) /\ sameBox w' w) ->
  pageInv (withWidgets p ws').
Proof.
  intros (Hu & Hg & Hk) Hu' Hsub. split; [|split]; simpl; auto.
  - apply Forall_forall. intros w' Hw'. destruct (Hsub _ Hw') as (w & Hw & Hb).
    rewrite Forall_forall in Hg. eapply sameBox_inGrid; eauto.
  - unfold gestureOk in *. simpl. destruct (gesture p); auto.
    + destruct Hk as (d & Hd & H1 & H2 & H3 & H4). exists d. split; auto.
      split; [assumption|]. split; [assumption|]. split; [assumption|].
      intros Hnew w' Hw' E.
      destruct (Hsub _ Hw') as (v & Hv & (Ei & _ & _ & Ew & Eh)).
      destruct (H4 Hnew v Hv); [congruence|]. split; congruence.
    + destruct Hk as (H1 & H2 & H3).
      split; [assumption|]. split; [assumption|].
      intros w' Hw' E.
      destruct (Hsub _ Hw') as (v & Hv & (Ei & Ex & Ey & _)).
      destruct (H3 v Hv); [congruence|]. split; congruence.
Qed.

Lemma noOverlap_sameBox ws ws' :
  noOverlap ws ->
  (forall w', In w' ws' -> exists w, In w ws /\ sameBox w' w) ->
  noOverlap ws'.
Proof.
  intros Hn Hsub a' b' Ha Hb Hid.
  destruct (Hsub _ Ha) as (a & Ha0 & Sa). destruct (Hsub _ Hb) as (b & Hb0 & Sb).
  rewrite (rectsOverlap_sameBox a a' b b') by assumption.
  apply Hn; auto. destruct Sa as (Ea & _), Sb as (Eb & _). congruence.
Qed.

(** Field edits and deletion change neither identifiers nor rectangles. *)
Lemma updateById_sameBox k f ws :
  (forall w, sameBox (f w) w) ->
  forall w', In w' (updateById k f ws) -> exists w, In w ws /\ sameBox w' w.
Proof.
  intros Hf w' Hin. apply updateById_In in Hin.
  destruct Hin as (w & Hw & [[_ ->]|[_ ->]]); exists w; split; auto.
  apply sameBox_refl.
Qed.

Lemma updateById_uniqueIds k f ws :
  (forall w, sameBox (f w) w) -> uniqueIds ws -> uniqueIds (updateById k f ws).
Proof.
  intros Hf Hu. unfold uniqueIds. rewrite updateById_ids; auto.
  intros w. apply Hf.
Qed.

Lemma handleDelete_sameBox ws k :
  forall w', In w' (handleDelete ws k) -> exists w, In w ws /\ sameBox w' w.
Proof.
  intros w' Hin. apply filter_In in Hin. exists w'. split; [tauto|apply sameBox_refl].
Qed.

Lemma onNameChange_cases ws w value :
  onNameChange ws w value = ws \/
  onNameChange ws w value
  = updateById (id w) (fun v => withName v (sanitizeName value)) ws.
Proof. unfold onNameChange. destruct (forallb _ ws); auto. Qed.

Lemma boxKeeping_update k f ws :
  (forall w, sameBox (f w) w) -> boxKeeping ws (updateById k f ws).
Proof.
  intros Hf. split; [apply updateById_uniqueIds | apply updateById_sameBox]; auto.
Qed.

Lemma boxKeeping_refl ws : boxKeeping ws ws.
Proof. split; auto. intros w H; exists w; split; auto. apply sameBox_refl. Qed.

Ltac box := intros ?; unfold sameBox; simpl; tauto.

Lemma onWidget_boxKeeping p i enabled act p' :
  (forall w, boxKeeping (widgets (state p)) (act w)) ->
  onWidget p i enabled act = Some p' ->
  exists ws', p' = withWidgets p ws' /\ boxKeeping (widgets (state p)) ws'.
Proof.
  intros Hact. unfold onWidget.
  destruct (gesture p), (nth_error (widgets (state p)) i) as [w|];
    try discriminate; destruct (enabled w); try discriminate;
    intros E; injection E as <-; eauto.
Qed.

Lemma edit_boxKeeping p ev p' :
  step p ev = Some p' ->
  match ev with
  | DeleteClick _ | NameChange _ _ | ScoreChange _ _ | RandomClick _ _
  | FormulaChange _ _ | InsertVariable _ _ _ =>
      exists ws', p' = withWidgets p ws' /\ boxKeeping (widgets (state p)) ws'
  | _ => True
  end.
Proof.
  destruct ev; simpl; auto; intros H.
  - eapply onWidget_boxKeeping; [|exact H]. intros w. split.
    + apply uniqueIds_filter.
    + apply handleDelete_sameBox.
  - eapply onWidget_boxKeeping; [|exact H]. intros w.
    destruct (onNameChange_cases (widgets (state p)) w value) as [->| ->].
    + apply boxKeeping_refl.
    + apply boxKeeping_update. box.
  - eapply onWidget_boxKeeping; [|exact H]. intros w.
    apply boxKeeping_update. box.
  - eapply onWidget_boxKeeping; [|exact H]. intros w.
    apply boxKeeping_update. box.
  - eapply onWidget_boxKeeping; [|exact H]. intros w.
    apply boxKeeping_update. box.
  - destruct (nth_error (widgets (state p)) j) as [v|]; [|discriminate].
    eapply onWidget_boxKeeping; [|exact H]. intros w.
    apply boxKeeping_update. box.
Qed.

Lemma libraryItems_sizes r k item :
  nth_error (libraryItems r) k = Some item ->
  2 <= item_width item <= GRID_COLS /\ 1 <= item_height item <= GRID_ROWS.
Proof.
  destruct k as [|[|k]]; simpl; intros E; try (injection E as <-; simpl).
  - unfold GRID_COLS, GRID_ROWS; lia.
  - unfold GRID_COLS, GRID_ROWS; lia.
  - destruct k; discriminate.
Qed.

Lemma dragStartItem_inv p e item :
  pageInv p ->
  2 <= item_width item <= GRID_COLS /\ 1 <= item_height item <= GRID_ROWS ->
  pageInv {| state := handleDragStart (state p) e (widgetOfItem item) true;
             gesture := Dragging |}.
Proof.
  intros (Hu & Hg & _) Hsz. split; [|split]; simpl; auto.
  unfold gestureOk; simpl. eexists; split; [reflexivity|].
  unfold dragOk, minSize; simpl. repeat split; try lia; discriminate.
Qed.

Lemma dragStartWidget_inv p e i w :
  pageInv p -> nth_error (widgets (state p)) i = Some w ->
  pageInv {| state := handleDragStart (state p) e w false; gesture := Dragging |}.
Proof.
  intros (Hu & Hg & _) Hw. split; [|split]; simpl; auto.
  unfold gestureOk; simpl. eexists; split; [reflexivity|].
  apply nth_error_In in Hw.
  assert (Hb := proj1 (Forall_forall _ _) Hg w Hw).
  destruct Hb as ((Hx & Hy & Hr & Hb) & (Hwd & Hh)).
  unfold dragOk, minSize; simpl.
  split; [lia|]. split; [lia|]. split; [lia|].
  intros _ v Hv E. rewrite (uniqueIds_same _ v w Hu Hv Hw E). tauto.
Qed.

(** A live move puts the dragged widget at the candidate cell, inside the
    grid. *)
Lemma handleDragOver_inv p e :
  pageInv p -> gesture p = Dragging ->
  pageInv {| state := handleDragOver (state p) e; gesture := Dragging |}.
Proof.
  intros (Hu & Hg & Hk) Hges. unfold gestureOk in Hk. rewrite Hges in Hk.
  destruct Hk as (d & Hd & Hdrag).
  assert (Hsame : pageInv {| state := state p; gesture := Dragging |}).
  { split; [|split]; auto. unfold gestureOk; simpl. eauto. }
  unfold handleDragOver. rewrite Hd. unfold candidateCell.
  set (cx := clampCell _ _). set (cy := clampCell _ _).
  destruct (negb (existsb _ _) && negb (isNew d))%bool eqn:Hc; [|exact Hsame].
  apply andb_true_iff in Hc. destruct Hc as (_ & Hnew).
  apply negb_true_iff in Hnew.
  destruct Hdrag as (Hw & Hh & Hmin & Hsz). specialize (Hsz Hnew).
  assert (Hcx : 0 <= cx <= GRID_COLS - width (dragged d))
    by (apply clampCell_range; lia).
  assert (Hcy : 0 <= cy <= GRID_ROWS - height (dragged d))
    by (apply clampCell_range; lia).
  split; [|split]; simpl.
  - unfold uniqueIds. rewrite updateById_ids; auto.
  - apply Forall_updateById; auto. intros w Hin E _.
    destruct (Hsz w Hin E) as (Ew & Eh).
    unfold inGrid, minSize in *; simpl. rewrite Ew, Eh. lia.
  - unfold gestureOk; simpl. exists d. split; auto.
    split; [assumption|]. split; [assumption|]. split; [assumption|].
    intros _ w' Hin E. apply updateById_In in Hin.
    destruct Hin as (w & Hin & [[Ei ->]|[Ei ->]]); simpl in *; auto.
Qed.

Lemma freshId_spec ws now :
  freshId ws now = true ->
  ~ In (js "widget-" ++ decimal now) (map id ws).
Proof.
  unfold freshId. intros H Hin. apply andb_true_iff in H. destruct H as (_ & H).
  apply negb_true_iff in H. apply in_map_iff in Hin. destruct Hin as (w & E & Hw).
  apply (existsb_false_In _ _ w) in H; auto.
  cbv beta in H. apply str_eqb_neq in H. congruence.
Qed.

Lemma uniqueIds_snoc ws w :
  uniqueIds ws -> ~ In (id w) (map id ws) -> uniqueIds (ws ++ [w]).
Proof.
  unfold uniqueIds. intros Hu Hf. rewrite map_app. simpl.
  apply NoDup_rev in Hu. rewrite <- (rev_involutive (map id ws ++ [id w])).
  apply NoDup_rev. rewrite rev_app_distr. simpl. constructor; auto.
  rewrite <- in_rev. assumption.
Qed.

Lemma handleDrop_inv p e now rName rScore :
  pageInv p -> gesture p = Dragging ->
  dropInputsOk (state p) now rName rScore = true ->
  pageInv {| state := handleDrop (state p) e now rName rScore; gesture := Idle |}.
Proof.
  intros (Hu & Hg & Hk) Hges Hin. unfold gestureOk in Hk. rewrite Hges in Hk.
  destruct Hk as (d & Hd & (Hw & Hh & Hmin & _)).
  assert (Hfresh : isNew d = true -> freshId (widgets (state p)) now = true).
  { intros Hnew. unfold dropInputsOk in Hin. rewrite Hd, Hnew in Hin.
    apply andb_true_iff in Hin. tauto. }
  unfold handleDrop. rewrite Hd. unfold candidateCell.
  set (cx := clampCell _ _). set (cy := clampCell _ _).
  assert (Hcx : 0 <= cx <= GRID_COLS - width (dragged d))
    by (apply clampCell_range; lia).
  assert (Hcy : 0 <= cy <= GRID_ROWS - height (dragged d))
    by (apply clampCell_range; lia).
  split; [|split]; simpl; [| |exact I].
  - destruct (isNew d); auto. destruct (negb (existsb _ _)); auto.
    apply uniqueIds_snoc; auto. simpl. apply freshId_spec; auto.
  - destruct (isNew d); auto. destruct (negb (existsb _ _)); auto.
    apply Forall_app. split; auto. constructor; [|constructor].
    unfold inGrid, minSize in *; simpl. lia.
Qed.

Lemma resizeDown_inv p i w g cx0 cy0 :
  pageInv p -> nth_error (widgets (state p)) i = Some w ->
  handleResize cx0 cy0 w = Some g ->
  pageInv {| state := state p; gesture := Resizing g |}.
Proof.
  intros (Hu & Hg & _) Hw Hr. split; [|split]; simpl; auto.
  unfold handleResize in Hr. destruct (type w); [|discriminate].
  injection Hr as <-. unfold gestureOk, resizeOk; simpl.
  apply nth_error_In in Hw.
  destruct (proj1 (Forall_forall _ _) Hg w Hw) as ((Hx & Hy & Hr & Hb) & (Hwd & Hh)).
  unfold GRID_COLS, GRID_ROWS in *.
  split; [lia|]. split; [lia|].
  intros v Hv E. rewrite (uniqueIds_same _ v w Hu Hv Hw E). tauto.
Qed.

(** A resize step keeps the widget inside the grid and at least 2 by 1. *)
Lemma handleMouseMove_inv p g cx1 cy1 :
  pageInv p -> gesture p = Resizing g ->
  pageInv (withWidgets p (handleMouseMove g cx1 cy1 (widgets (state p)))).
Proof.
  intros (Hu & Hg & Hk) Hges. unfold gestureOk in Hk. rewrite Hges in Hk.
  destruct Hk as (Hx & Hy & Hpos).
  unfold handleMouseMove.
  set (nw := Z.max 2 _). set (nh := Z.max 1 _).
  assert (Hnw : 2 <= nw <= GRID_COLS - x (resized g)) by (subst nw; lia).
  assert (Hnh : 1 <= nh <= GRID_ROWS - y (resized g)) by (subst nh; lia).
  split; [|split]; simpl.
  - unfold uniqueIds. rewrite updateById_ids; auto.
  - apply Forall_updateById; auto. intros w Hin E _.
    destruct (Hpos w Hin E) as (Ex & Ey).
    unfold inGrid, minSize; simpl. rewrite Ex, Ey. lia.
  - unfold gestureOk; simpl. rewrite Hges.
    split; [assumption|]. split; [assumption|].
    intros w' Hin E. apply updateById_In in Hin.
    destruct Hin as (w & Hin & [[Ei ->]|[Ei ->]]); simpl in *; auto.
Qed.

Lemma step_pageInv p ev p' : pageInv p -> step p ev = Some p' -> pageInv p'.
Proof.
  intros Hinv Hstep.
  assert (Hedit := edit_boxKeeping p ev p' Hstep).
  destruct ev; simpl in Hstep;
    try (destruct Hedit as (ws' & -> & (Hu & Hsub));
         apply pageInv_sameBox; auto; apply Hu; apply Hinv).
  - destruct (gesture p); try discriminate.
    destruct (nth_error (libraryItems r) k) as [item|] eqn:Hk; [|discriminate].
    destruct (isRandom r); [|discriminate]. injection Hstep as <-.
    apply dragStartItem_inv; auto. eapply libraryItems_sizes; eauto.
  - destruct (gesture p); try discriminate.
    destruct (nth_error (widgets (state p)) i) as [w|] eqn:Hw; [|discriminate].
    injection Hstep as <-. eapply dragStartWidget_inv; eauto.
  - destruct (gesture p) eqn:Hges; try discriminate. injection Hstep as <-.
    apply handleDragOver_inv; auto.
  - destruct (gesture p) eqn:Hges; try discriminate.
    destruct (dropInputsOk (state p) now rName rScore) eqn:Hc; [|discriminate].
    injection Hstep as <-. apply handleDrop_inv; auto.
  - destruct (gesture p); try discriminate. injection Hstep as <-.
    destruct Hinv as (Hu & Hg & _). split; [|split]; simpl; auto; exact I.
  - destruct (gesture p); try discriminate.
    destruct (nth_error (widgets (state p)) i) as [w|] eqn:Hw; [|discriminate].
    destruct (type w); [|discriminate].
    destruct (handleResize clientX0 clientY0 w) as [g|] eqn:Hr; [|discriminate].
    injection Hstep as <-. eapply resizeDown_inv; eauto.
  - destruct (gesture p) eqn:Hges; try discriminate. injection Hstep as <-.
    apply handleMouseMove_inv; auto.
  - destruct (gesture p); try discriminate. injection Hstep as <-.
    destruct Hinv as (Hu & Hg & _). split; [|split]; simpl; auto; exact I.
Qed.

Lemma initialPage_inv : pageInv initialPage.
Proof.
  split; [|split]; simpl; [constructor | constructor | exact I].
Qed.

Lemma run_pageInv evs : forall p p', pageInv p -> run p evs = Some p' -> pageInv p'.
Proof.
  induction evs as [|ev evs IH]; simpl; intros p p' Hinv Hrun.
  - injection Hrun as <-. assumption.
  - destruct (step p ev) as [q|] eqn:Hstep; [|discriminate].
    eapply IH; [|exact Hrun]. eapply step_pageInv; eauto.
Qed.

(** ** The placement invariant *)

Lemma handleDragOver_noOverlap p e :
  pageInv p -> gesture p = Dragging -> noOverlap (widgets (state p)) ->
  noOverlap (widgets (handleDragOver (state p) e)).
Proof.
  intros (Hu & Hg & Hk) Hges Hn. unfold gestureOk in Hk. rewrite Hges in Hk.
  destruct Hk as (d & Hd & (_ & _ & _ & Hsz)).
  unfold handleDragOver. rewrite Hd. unfold candidateCell.
  set (cx := clampCell _ _). set (cy := clampCell _ _).
  destruct (negb (existsb _ _) && negb (isNew d))%bool eqn:Hc; [|exact Hn].
  apply andb_true_iff in Hc. destruct Hc as (Hfree & Hnew).
  apply negb_true_iff in Hfree, Hnew. specialize (Hsz Hnew).
  assert (Hclear : forall v, In v (widgets (state p)) -> id v <> id (dragged d) ->
            overlaps cx cy (width (dragged d)) (height (dragged d)) v = false).
  { intros v Hv Hid. apply (existsb_false_In _ _ v) in Hfree; auto.
    cbv beta in Hfree. apply str_eqb_neq in Hid. rewrite Hid in Hfree.
    exact Hfree. }
  simpl. intros a' b' Ha Hb Hid.
  apply updateById_In in Ha, Hb.
  destruct Ha as (a & Ha & [[Ea ->]|[Ea ->]]);
    destruct Hb as (b & Hb & [[Eb ->]|[Eb ->]]); simpl in Hid.
  - congruence.
  - destruct (Hsz a Ha Ea) as (Ew & Eh).
    unfold rectsOverlap; simpl. rewrite Ew, Eh. apply Hclear; auto.
  - destruct (Hsz b Hb Eb) as (Ew & Eh).
    rewrite rectsOverlap_sym. unfold rectsOverlap; simpl.
    rewrite Ew, Eh. apply Hclear; auto.
  - apply Hn; auto.
Qed.

Lemma handleDrop_noOverlap s e now rName rScore :
  noOverlap (widgets s) ->
  noOverlap (widgets (handleDrop s e now rName rScore)).
Proof.
  intros Hn. unfold handleDrop. destruct (draggingWidget s) as [d|]; [|exact Hn].
  unfold candidateCell.
  set (cx := clampCell _ _). set (cy := clampCell _ _). simpl.
  destruct (isNew d); [|exact Hn].
  destruct (existsb _ (widgets s)) eqn:Hfree; simpl; [exact Hn|].
  intros a b Ha Hb Hid. apply in_app_or in Ha, Hb.
  destruct Ha as [Ha|[<-|[]]]; destruct Hb as [Hb|[<-|[]]].
  - apply Hn; auto.
  - rewrite rectsOverlap_sym. unfold rectsOverlap; simpl.
    apply (existsb_false_In _ _ a) in Hfree; auto.
  - unfold rectsOverlap; simpl.
    apply (existsb_false_In _ _ b) in Hfree; auto.
  - congruence.
Qed.

Lemma step_noOverlap p ev p' :
  pageInv p -> noOverlap (widgets (state p)) -> isMouseMove ev = false ->
  step p ev = Some p' -> noOverlap (widgets (state p')).
Proof.
  intros Hinv Hn Hmm Hstep.
  assert (Hedit := edit_boxKeeping p ev p' Hstep).
  destruct ev; simpl in Hstep; try discriminate Hmm;
    try (destruct Hedit as (ws' & -> & (_ & Hsub)); simpl;
         eapply noOverlap_sameBox; eauto).
  - destruct (gesture p); try discriminate.
    destruct (nth_error (libraryItems r) k); [|discriminate].
    destruct (isRandom r); [|discriminate]. injection Hstep as <-. exact Hn.
  - destruct (gesture p); try discriminate.
    destruct (nth_error (widgets (state p)) i); [|discriminate].
    injection Hstep as <-. exact Hn.
  - destruct (gesture p) eqn:Hges; try discriminate. injection Hstep as <-.
    apply handleDragOver_noOverlap; auto.
  - destruct (gesture p); try discriminate.
    destruct (dropInputsOk (state p) now rName rScore); [|discriminate].
    injection Hstep as <-. apply handleDrop_noOverlap; auto.
  - destruct (gesture p); try discriminate. injection Hstep as <-. exact Hn.
  - destruct (gesture p); try discriminate.
    destruct (nth_error (widgets (state p)) i) as [w|]; [|discriminate].
    destruct (type w); [|discriminate].
    destruct (handleResize clientX0 clientY0 w); [|discriminate].
    injection Hstep as <-. exact Hn.
  - destruct (gesture p); try discriminate. injection Hstep as <-. exact Hn.
Qed.

Lemma run_noOverlap evs : forall p p',
  pageInv p -> noOverlap (widgets (state p)) ->
  forallb (fun ev => negb (isMouseMove ev)) evs = true ->
  run p evs = Some p' -> noOverlap (widgets (state p')).
Proof.
  induction evs as [|ev evs IH]; simpl; intros p p' Hinv Hn Hmm Hrun.
  - injection Hrun as <-. assumption.
  - destruct (step p ev) as [q|] eqn:Hstep; [|discriminate].
    apply andb_true_iff in Hmm. destruct Hmm as (Hm & Hmm).
    apply negb_true_iff in Hm.
    eapply IH; [| |exact Hmm|exact Hrun].
    + eapply step_pageInv; eauto.
    + eapply step_noOverlap; eauto.
Qed.

(** C1 (as amended): after any sequence of drops, live drag-over moves,
    deletions and field edits that contains no resize step, the widgets at
    any two different positions of the store have rectangles that do not
    overlap and share no grid cell. *)
Theorem placement_invariant_without_resize (evs : list Event) (p : Page) :
  forallb (fun ev => negb (isMouseMove ev)) evs = true ->
  run initialPage evs = Some p ->
  placementInvariant (widgets (state p)).
Proof.
  intros Hmm Hrun i j a b Hij Ha Hb.
  assert (Hinv : pageInv p) by (eapply run_pageInv; eauto using initialPage_inv).
  assert (Hn : noOverlap (widgets (state p))).
  { apply (run_noOverlap evs initialPage p initialPage_inv); auto.
    intros u v Hu. destruct Hu. }
  assert (Ho : rectsOverlap a b = false).
  { apply Hn; eauto using nth_error_In.
    eapply uniqueIds_nth; eauto. apply Hinv. }
  split; [exact Ho | apply rectsOverlap_disjoint; exact Ho].
Qed.

(** X23: along every run of the page's own gestures (drag-over and drop
    reaching the grid only during a drag begun on a library item or on a
    widget of the store), every widget of the store lies inside the 8 by
    10 grid, and while a drag is under way the candidate cell of any
    pointer position leaves room for the dragged widget inside the grid. *)
Theorem widgets_stay_in_grid_within_own_gestures (evs : list Event) (p : Page) :
  run initialPage evs = Some p ->
  Forall (fun w => 0 <= x w /\ 0 <= y w /\ x w + width w <= 8 /\ y w + height w <= 10)
         (widgets (state p)) /\
  forall d e, gesture p = Dragging -> draggingWidget (state p) = Some d ->
    0 <= fst (candidateCell e d) <= GRID_COLS - width (dragged d) /\
    0 <= snd (candidateCell e d) <= GRID_ROWS - height (dragged d).
Proof.
  intros Hrun.
  assert (Hinv : pageInv p) by (eapply run_pageInv; eauto using initialPage_inv).
  destruct Hinv as (_ & Hg & Hk). split.
  - eapply Forall_impl; [|exact Hg]. intros w (Hw & _). exact Hw.
  - intros d e Hges Hd. unfold gestureOk in Hk. rewrite Hges, Hd in Hk.
    destruct Hk as (d' & E & (Hw & Hh & _)). injection E as <-.
    unfold candidateCell; cbn [fst snd].
    split; apply clampCell_range; lia.
Qed.

(** C3 fails on the code: a score widget is dropped, a drag of it ends
    outside the grid, which leaves [draggingWidget] set (only [handleDrop]
    clears it), and the widget is then made 6 cells wide; a drag of
    anything else over the grid now runs [handleDragOver], which clamps
    the column with the width 2 remembered at drag start and puts the
    widget at column 6, where it reaches column 12 of 8. *)
Theorem stale_drag_over_pushes_widget_out_of_grid :
  exists p w,
    run initialPage staleDragThenResize = Some p /\ gesture p = Idle /\
    Forall inGrid (widgets (state p)) /\
    widgets (handleDragOver (state p) (pointerAt 705 5)) = [w] /\
    x w = 6 /\ width w = 6 /\ ~ inGrid w.
Proof.
  eexists. eexists. split; [vm_compute; reflexivity|].
  split; [reflexivity|]. split.
  - constructor; [|constructor]. unfold inGrid, GRID_COLS, GRID_ROWS; simpl. lia.
  - split; [vm_compute; reflexivity|]. split; [reflexivity|]. split; [reflexivity|].
    unfold inGrid, GRID_COLS; simpl. lia.
Qed.

Lemma placement_invariant_without_resize_witness :
  exists p, run initialPage dragFirstDown = Some p /\
            placementInvariant (widgets (state p)).
Proof.
  eexists. split.
  - vm_compute. reflexivity.
  - apply (placement_invariant_without_resize dragFirstDown).
    + vm_compute. reflexivity.
    + vm_compute. reflexivity.
Defined.

(** C1 (as stated) fails: after two drops side by side, a resize of the
    first widget by two cells makes it cover cells of the second. *)
Lemma resize_breaks_placement_invariant :
  ~ (forall evs p, run initialPage evs = Some p ->
                   placementInvariant (widgets (state p))).
Proof.
  intros H.
  destruct (run initialPage resizeFirstWider) as [p|] eqn:Hrun;
    [|vm_compute in Hrun; discriminate].
  specialize (H resizeFirstWider p Hrun).
  vm_compute in Hrun. injection Hrun as <-.
  destruct (H 0%nat 1%nat _ _ ltac:(discriminate) eq_refl eq_refl) as (Ho & _).
  vm_compute in Ho. discriminate.
Qed.

Lemma widgets_stay_in_grid_within_own_gestures_witness :
  exists p d,
    run initialPage dragFirstDown = Some p /\
    gesture p = Dragging /\ draggingWidget (state p) = Some d /\
    Forall (fun w => 0 <= x w /\ 0 <= y w /\ x w + width w <= 8 /\ y w + height w <= 10)
           (widgets (state p)) /\
    0 <= fst (candidateCell (pointerAt 5000 (-300)) d) <= GRID_COLS - width (dragged d) /\
    0 <= snd (candidateCell (pointerAt 5000 (-300)) d) <= GRID_ROWS - height (dragged d).
Proof.
  eexists. eexists.
  split; [vm_compute; reflexivity|].
  split; [reflexivity|]. split; [reflexivity|].
  destruct (widgets_stay_in_grid_within_own_gestures dragFirstDown _
              ltac:(vm_compute; reflexivity)) as (Hall & Hcand).
  split; [exact Hall|].
  exact (Hcand _ (pointerAt 5000 (-300)) eq_refl eq_refl).
Defined.

(** ** Drops of new items *)

Lemma existsb_overlaps_collides cx cy w h ws :
  existsb (overlaps cx cy w h) ws = true <-> collides cx cy w h ws.
Proof.
  rewrite existsb_exists. unfold collides.
  split; intros (E & Hin & H); exists E; split; auto;
    apply overlaps_true_iff; assumption.
Qed.

(** C4: while the dragged item is new, a drag-over leaves the store as it
    is; a drop whose clamped candidate rectangle collides with an existing
    widget leaves the store as it is; and a drop that collides with none
    appends one widget. *)
Theorem new_item_enters_only_at_free_drop
    (s : State) (d : DraggingWidget) (e : PointerEvent)
    (now : Z) (rName rScore : Q) :
  draggingWidget s = Some d -> isNew d = true ->
  let cx := fst (candidateCell e d) in
  let cy := snd (candidateCell e d) in
  let hit := collides cx cy (width (dragged d)) (height (dragged d)) (widgets s) in
  widgets (handleDragOver s e) = widgets s /\
  (hit -> widgets (handleDrop s e now rName rScore) = widgets s) /\
  (~ hit -> exists w, widgets (handleDrop s e now rName rScore) = widgets s ++ [w]
                      /\ x w = cx /\ y w = cy).
Proof.
  intros Hd Hnew cx cy hit. subst hit cx cy.
  unfold handleDragOver, handleDrop. rewrite Hd, Hnew.
  destruct (candidateCell e d) as (cx, cy). cbn [fst snd].
  rewrite andb_false_r. split; [reflexivity|]. cbn [widgets width height].
  destruct (existsb (overlaps cx cy (width (dragged d)) (height (dragged d)))
                    (widgets s)) eqn:Hex.
  - split; [reflexivity|]. intros Hno. exfalso. apply Hno.
    apply existsb_overlaps_collides. exact Hex.
  - split.
    + intros Hhit. apply existsb_overlaps_collides in Hhit. congruence.
    + intros _. eexists. split; [reflexivity|]. split; reflexivity.
Qed.

Lemma new_item_enters_only_at_free_drop_witness :
  let s := {| widgets := [sampleScore 1000 "cat" 0 0];
              draggingWidget :=
                Some {| dragged := widgetOfItem
                          {| item_id := js "score"; item_width := 2; item_height := 1;
                             item_title := js "Score"; item_type := Score;
                             item_score := Some (Int 7); item_name := Some [];
                             item_formula := None |};
                        isNew := true; offsetX := 0; offsetY := 0 |} |} in
  widgets (handleDragOver s (pointerAt 110 10)) = widgets s /\
  widgets (handleDrop s (pointerAt 110 10) 2000 0 0) = widgets s.
Proof.
  intros s.
  destruct (new_item_enters_only_at_free_drop s _ (pointerAt 110 10) 2000 0 0
              eq_refl eq_refl) as (Hover & Hdrop & _).
  split; [exact Hover|]. apply Hdrop.
  exists (sampleScore 1000 "cat" 0 0). split; [left; reflexivity|].
  vm_compute. repeat split; reflexivity.
Defined.

(** ** Name edits *)


(** The test [widgets.every(w => w.id === widget.id || w.name !== name)]
    fails exactly when a widget with another identifier has the name. *)
Lemma nameTaken_iff ws w newName :
  forallb (fun v => str_eqb (id v) (id w) || negb (str_eqb (name v) newName))%bool ws
  = false
  <-> exists v, In v ws /\ id v <> id w /\ name v = newName.
Proof.
  split.
  - intros H. induction ws as [|u ws IH]; simpl in H; [discriminate|].
    apply andb_false_iff in H. destruct H as [H|H].
    + apply orb_false_iff in H. destruct H as (H1 & H2).
      apply str_eqb_neq in H1. apply negb_false_iff, str_eqb_eq in H2.
      exists u. simpl; auto.
    + destruct (IH H) as (v & Hv & Hr). exists v. simpl; auto.
  - intros (v & Hv & Hid & Hname).
    destruct (forallb _ ws) eqn:E; [|reflexivity].
    rewrite forallb_forall in E. specialize (E v Hv).
    apply str_eqb_neq in Hid. rewrite Hid, Hname, str_eqb_refl in E.
    discriminate.
Qed.

Lemma onNameChange_rejected ws w value :
  (exists v, In v ws /\ id v <> id w /\ name v = sanitizeName value) ->
  onNameChange ws w value = ws.
Proof.
  intros H. apply nameTaken_iff in H. unfold onNameChange. rewrite H. reflexivity.
Qed.

Lemma onNameChange_accepted ws w value :
  ~ (exists v, In v ws /\ id v <> id w /\ name v = sanitizeName value) ->
  onNameChange ws w value
  = updateById (id w) (fun v => withName v (sanitizeName value)) ws.
Proof.
  intros H. unfold onNameChange.
  destruct (forallb _ ws) eqn:E; [reflexivity|].
  exfalso. apply H. apply nameTaken_iff. exact E.
Qed.



(** C8 (as stated) fails: with a calculator in the store, whose name is
    the empty string, an edit of a score widget's name whose sanitized
    result is empty is refused. *)
Lemma empty_name_edit_refused_beside_calculator :
  ~ (forall ws i w value,
       nth_error ws i = Some w -> type w = Score -> sanitizeName value = [] ->
       nth_error (onNameChange ws w value) i = Some (withName w [])).
Proof.
  intros H.
  specialize (H [sampleScore 1000 "cat" 0 0; sampleCalculator 2000 0 1] 0%nat
                (sampleScore 1000 "cat" 0 0) (js "7") eq_refl eq_refl eq_refl).
  vm_compute in H. discriminate.
Qed.

(** C8 (as amended): the uniqueness test of a name edit looks at every
    other widget whatever its type, and the empty name is not exempt: an
    edit whose sanitized result is empty is refused, the store unchanged,
    when a widget with another identifier has the empty name (a
    calculator always has), and is accepted when none has. *)
Theorem empty_name_edit_accepted_iff_no_other_empty_name
    (ws : list Widget) (i : nat) (w : Widget) (value : jsstring) :
  nth_error ws i = Some w -> sanitizeName value = [] ->
  ((exists v, In v ws /\ id v <> id w /\ name v = []) ->
   onNameChange ws w value = ws) /\
  ((exists c, In c ws /\ id c <> id w /\ type c = Calculator /\ name c = []) ->
   onNameChange ws w value = ws) /\
  ((forall v, In v ws -> id v <> id w -> name v <> []) ->
   nth_error (onNameChange ws w value) i = Some (withName w [])).
Proof.
  intros Hw Hempty. split; [|split].
  - intros (v & Hv & Hid & Hname). apply onNameChange_rejected.
    exists v. rewrite Hempty. auto.
  - intros (c & Hc & Hid & _ & Hname). apply onNameChange_rejected.
    exists c. rewrite Hempty. auto.
  - intros Hnone. rewrite onNameChange_accepted.
    + rewrite (updateById_nth _ _ _ _ _ Hw), str_eqb_refl, Hempty. reflexivity.
    + intros (v & Hv & Hid & Hname). rewrite Hempty in Hname.
      exact (Hnone v Hv Hid Hname).
Qed.

Lemma empty_name_edit_accepted_iff_no_other_empty_name_witness :
  let ws := [sampleScore 1000 "cat" 0 0; sampleCalculator 2000 0 1] in
  onNameChange ws (sampleScore 1000 "cat" 0 0) (js "7") = ws.
Proof.
  intros ws.
  destruct (empty_name_edit_accepted_iff_no_other_empty_name ws 0
              (sampleScore 1000 "cat" 0 0) (js "7") eq_refl eq_refl)
    as (_ & Hcalc & _).
  apply Hcalc. exists (sampleCalculator 2000 0 1).
  split; [right; left; reflexivity|].
  split; [vm_compute; discriminate|]. split; reflexivity.
Defined.

(** ** Deletion *)

Lemma filter_Subseq {A} (p : A -> bool) l : Subseq (filter p l) l.
Proof.
  induction l as [|a l IH]; simpl; [constructor|].
  destruct (p a); constructor; assumption.
Qed.

Lemma filter_length_split {A} (p : A -> bool) l :
  (length (filter p l) + length (filter (fun a => negb (p a)) l) = length l)%nat.
Proof.
  induction l as [|a l IH]; simpl; auto. destruct (p a); simpl; lia.
Qed.

Lemma filter_all {A} (p : A -> bool) l :
  (forall a, In a l -> p a = true) -> filter p l = l.
Proof.
  induction l as [|a l IH]; simpl; intros H; auto.
  rewrite (H a) by auto. f_equal. apply IH. auto.
Qed.

(** C10: [handleDelete] keeps no widget with the given identifier, keeps
    every other widget as it is and in the order of the store, drops as
    many widgets as have the identifier, and returns the store itself
    when none has. *)
Theorem handleDelete_removes_exactly_that_id (ws : list Widget) (widgetId : jsstring) :
  Forall (fun w => id w <> widgetId) (handleDelete ws widgetId) /\
  Subseq (handleDelete ws widgetId) ws /\
  (forall w, In w ws -> id w <> widgetId -> In w (handleDelete ws widgetId)) /\
  (length (handleDelete ws widgetId)
   + length (filter (fun w => str_eqb (id w) widgetId) ws) = length ws)%nat /\
  ((forall w, In w ws -> id w <> widgetId) -> handleDelete ws widgetId = ws).
Proof.
  unfold handleDelete. split; [|split; [|split; [|split]]].
  - apply Forall_forall. intros w Hw. apply filter_In in Hw.
    destruct Hw as (_ & Hw). apply negb_true_iff, str_eqb_neq in Hw. exact Hw.
  - apply filter_Subseq.
  - intros w Hw Hid. apply filter_In. split; auto.
    apply negb_true_iff, str_eqb_neq. exact Hid.
  - rewrite <- (filter_length_split (fun w => negb (str_eqb (id w) widgetId)) ws).
    f_equal. f_equal. apply filter_ext. intros w. rewrite negb_involutive.
    reflexivity.
  - intros H. apply filter_all. intros w Hw.
    apply negb_true_iff, str_eqb_neq. auto.
Qed.

Lemma handleDelete_removes_exactly_that_id_witness :
  let ws := [sampleScore 1000 "cat" 0 0; sampleCalculator 2000 0 1;
             sampleScore 3000 "dog" 2 0] in
  handleDelete ws (js "widget-2000")
  = [sampleScore 1000 "cat" 0 0; sampleScore 3000 "dog" 2 0] /\
  handleDelete ws (js "widget-4000") = ws.
Proof.
  intros ws. split; [vm_compute; reflexivity|].
  apply (handleDelete_removes_exactly_that_id ws (js "widget-4000")).
  intros w [<-|[<-|[<-|[]]]]; vm_compute; discriminate.
Defined.

(** ** Scores *)

Lemma generateRandomScore_range r :
  isRandom r = true -> 0 <= generateRandomScore r <= 100.
Proof.
  unfold isRandom, generateRandomScore. intros H.
  apply andb_true_iff in H. destruct H as (H0 & H1).
  apply Qle_bool_iff in H0. apply negb_true_iff in H1.
  assert (Hlt : (r < 1)%Q).
  { apply Qnot_le_lt. intros Hle. apply Qle_bool_iff in Hle. congruence. }
  split.
  - change 0 with (Qfloor 0). apply Qfloor_resp_le.
    rewrite <- (Qmult_0_l 101). apply Qmult_le_compat_r; [exact H0|discriminate].
  - assert (Hb : (inject_Z (Qfloor (r * 101)) < inject_Z 101)%Q).
    { eapply Qle_lt_trans; [apply Qfloor_le|].
      setoid_replace (inject_Z 101) with (1 * 101)%Q by reflexivity.
      apply Qmult_lt_compat_r; [reflexivity|exact Hlt]. }
    rewrite <- Zlt_Qlt in Hb. lia.
Qed.

Lemma clamped_score_in_range z :
  scoreInRange (Math_max (Int 0) (Math_min (Int 100) (Int z))).
Proof. simpl. lia. Qed.

(** A score edit whose text [parseInt] reads as an integer stores a value
    of [0, 100] in the edited widget. *)
Lemma onScoreChange_parsed ws i w value z :
  nth_error ws i = Some w -> parseInt value = Int z ->
  exists w', nth_error (onScoreChange ws w value) i = Some w' /\
             scoreInRange (score w').
Proof.
  intros Hw Hp. unfold onScoreChange.
  rewrite (updateById_nth _ _ _ _ _ Hw), str_eqb_refl, Hp.
  eexists. split; [reflexivity|]. apply clamped_score_in_range.
Qed.

(** ** Reachable sample stores *)

Lemma twoScores_run :
  option_map (fun p => widgets (state p)) (run initialPage twoScores)
  = Some [sampleScore 1000 "cat" 0 0; sampleScore 2000 "dog" 2 0].
Proof. vm_compute. reflexivity. Qed.

Lemma scoreAndCalculator_run :
  option_map (fun p => widgets (state p)) (run initialPage scoreAndCalculator)
  = Some [sampleScore 1000 "cat" 0 0; sampleCalculator 2000 0 1].
Proof. vm_compute. reflexivity. Qed.

(** ** Scores along a run *)

Lemma onWidget_inv p i enabled act p' :
  onWidget p i enabled act = Some p' ->
  exists w, nth_error (widgets (state p)) i = Some w /\ enabled w = true /\
            p' = withWidgets p (act w).
Proof.
  unfold onWidget.
  destruct (gesture p), (nth_error (widgets (state p)) i) as [w|];
    try discriminate; destruct (enabled w) eqn:E; try discriminate;
    intros H; injection H as <-; eauto.
Qed.

Lemma scoresInRange_update k f ws :
  scoresInRange ws ->
  (forall w, scoreInRange (score w) -> scoreInRange (score (f w))) ->
  scoresInRange (updateById k f ws).
Proof.
  intros Hs Hf. apply Forall_updateById; auto.
Qed.

(** Apart from a score edit whose text has no integer to read, every
    action keeps every score in [0, 100]. *)
Lemma step_scoresInRange p ev p' :
  scoresInRange (widgets (state p)) -> parsesScore ev = true ->
  step p ev = Some p' -> scoresInRange (widgets (state p')).
Proof.
  intros Hs Hparse Hstep. destruct ev; simpl in Hstep.
  - destruct (gesture p); try discriminate.
    destruct (nth_error (libraryItems r) k); [|discriminate].
    destruct (isRandom r); [|discriminate]. injection Hstep as <-. exact Hs.
  - destruct (gesture p); try discriminate.
    destruct (nth_error (widgets (state p)) i); [|discriminate].
    injection Hstep as <-. exact Hs.
  - destruct (gesture p); try discriminate. injection Hstep as <-.
    unfold handleDragOver. destruct (draggingWidget (state p)) as [d|]; [|exact Hs].
    destruct (candidateCell e d) as (cx, cy).
    destruct (_ && _)%bool; [|exact Hs].
    apply scoresInRange_update; auto.
  - destruct (gesture p); try discriminate.
    destruct (dropInputsOk (state p) now rName rScore) eqn:Hin; [|discriminate].
    injection Hstep as <-. unfold handleDrop, dropInputsOk in *.
    destruct (draggingWidget (state p)) as [d|]; [|exact Hs].
    destruct (candidateCell e d) as (cx, cy). cbn [widgets].
    destruct (isNew d); [|exact Hs].
    destruct (negb (existsb _ _)); [|exact Hs].
    apply Forall_app. split; [exact Hs|]. constructor; [|constructor].
    cbn [score]. destruct (type (dragged d)); simpl; [|lia].
    apply generateRandomScore_range.
    apply andb_true_iff in Hin. destruct Hin as (Hin & _).
    apply andb_true_iff in Hin. tauto.
  - destruct (gesture p); try discriminate. injection Hstep as <-. exact Hs.
  - destruct (gesture p); try discriminate.
    destruct (nth_error (widgets (state p)) i) as [w|]; [|discriminate].
    destruct (type w); [|discriminate].
    destruct (handleResize clientX0 clientY0 w); [|discriminate].
    injection Hstep as <-. exact Hs.
  - destruct (gesture p); try discriminate. injection Hstep as <-.
    apply scoresInRange_update; auto.
  - destruct (gesture p); try discriminate. injection Hstep as <-. exact Hs.
  - apply onWidget_inv in Hstep. destruct Hstep as (w & _ & _ & ->).
    apply Forall_forall. intros v Hv. apply filter_In in Hv.
    exact (proj1 (Forall_forall _ _) Hs v (proj1 Hv)).
  - apply onWidget_inv in Hstep. destruct Hstep as (w & _ & _ & ->).
    destruct (onNameChange_cases (widgets (state p)) w value) as [E|E];
      simpl; rewrite E; [exact Hs|].
    apply scoresInRange_update; auto.
  - apply onWidget_inv in Hstep. destruct Hstep as (w & _ & _ & ->).
    simpl in Hparse. destruct (parseInt value) as [z|] eqn:Hp; [|discriminate].
    apply scoresInRange_update; auto. intros v _.
    cbn [score withScore]. rewrite Hp. apply clamped_score_in_range.
  - apply onWidget_inv in Hstep. destruct Hstep as (w & _ & Hen & ->).
    apply andb_true_iff in Hen. destruct Hen as (_ & Hr).
    apply scoresInRange_update; auto. intros v _.
    cbn [score withScore scoreInRange]. apply generateRandomScore_range. exact Hr.
  - apply onWidget_inv in Hstep. destruct Hstep as (w & _ & _ & ->).
    apply scoresInRange_update; auto.
  - destruct (nth_error (widgets (state p)) j) as [v|]; [|discriminate].
    apply onWidget_inv in Hstep. destruct Hstep as (w & _ & _ & ->).
    apply scoresInRange_update; auto.
Qed.

Lemma run_scoresInRange evs : forall p p',
  scoresInRange (widgets (state p)) ->
  forallb parsesScore evs = true ->
  run p evs = Some p' -> scoresInRange (widgets (state p')).
Proof.
  induction evs as [|ev evs IH]; simpl; intros p p' Hs Hparse Hrun.
  - injection Hrun as <-. assumption.
  - destruct (step p ev) as [q|] eqn:Hstep; [|discriminate].
    apply andb_true_iff in Hparse. destruct Hparse as (Hp & Hparse).
    eapply IH; [|exact Hparse|exact Hrun].
    eapply step_scoresInRange; eauto.
Qed.

(** C6 fails on the code: a score widget is dropped and its score field
    is then cleared; [parseInt] of the empty text is NaN, which passes
    through [Math.min] and [Math.max] and is stored as the score, outside
    [0, 100]. *)
Theorem cleared_score_field_stores_NaN :
  exists p w,
    run initialPage
        [ DragStartItem 0 (1 # 2) (pointerAt 0 0);
          Drop (pointerAt 10 10) 1000 0 (1 # 2);
          ScoreChange 0 [] ] = Some p /\
    widgets (state p) = [w] /\ type w = Score /\
    score w = NaN /\ ~ scoreInRange (score w).
Proof.
  eexists. eexists. split; [vm_compute; reflexivity|].
  split; [reflexivity|]. split; [reflexivity|]. split; [reflexivity|].
  simpl. tauto.
Qed.

(** ** The formula evaluator *)

Lemma formulaChar_allowed c : formulaChar c = true -> allowedInFormula c.
Proof.
  unfold formulaChar, allowedInFormula, isLower, isUpper, isDigit, inRange.
  rewrite !orb_true_iff, !andb_true_iff, !N.leb_le.
  intros [[[[H|H]|H]|H]|H]; auto.
  right; right; right; left.
  apply existsb_exists in H. destruct H as (d & Hd & E).
  apply N.eqb_eq in E. subst d. vm_compute in Hd. vm_compute. tauto.
Qed.

Lemma formulaRegExpTest_all formula c :
  formulaRegExpTest formula = true -> In c formula -> formulaChar c = true.
Proof.
  unfold formulaRegExpTest. destruct formula as [|a l]; [discriminate|].
  intros H. rewrite forallb_forall in H. auto.
Qed.

(** C2: a formula with a code unit outside letters, digits,
    [+ - * / ( ) .] and white space evaluates to the error marker,
    whatever the variables and whatever the host's [Function] constructor
    would do with it. *)
Theorem formula_with_foreign_character_is_rejected
    (newFunction : hostFunction) (formula : jsstring)
    (variables : list (jsstring * float)) (c : N) :
  In c formula -> ~ allowedInFormula c ->
  evaluateFormulaWith newFunction formula variables = Some ErrorMarker /\
  evaluateFormula formula variables = Some ErrorMarker.
Proof.
  intros Hin Hbad.
  assert (Htest : formulaRegExpTest formula = false).
  { destruct (formulaRegExpTest formula) eqn:E; [|reflexivity].
    exfalso. apply Hbad. apply formulaChar_allowed.
    eapply formulaRegExpTest_all; eauto. }
  unfold evaluateFormula, evaluateFormulaWith. rewrite Htest. split; reflexivity.
Qed.

Lemma formula_with_foreign_character_is_rejected_witness :
  evaluateFormula (js "a; alert(1)") [(js "a", floatOfZ 10)] = Some ErrorMarker.
Proof.
  apply (formula_with_foreign_character_is_rejected arithFunction
           (js "a; alert(1)") [(js "a", floatOfZ 10)] 59%N).
  - vm_compute. tauto.
  - unfold allowedInFormula. vm_compute.
    intros [[H _]|[[H _]|[[_ H]|[H|H]]]]; try (apply H; reflexivity);
      try discriminate.
    repeat (destruct H as [H|H]; [discriminate|]). exact H.
Defined.

(** C5 (as stated) fails: division by zero gives Infinity, which [isNaN]
    lets through. *)
Lemma division_by_zero_is_not_the_error_marker :
  evaluateFormula (js "a / 0") [(js "a", floatOfZ 10)] <> Some ErrorMarker.
Proof. vm_compute. discriminate. Qed.

(** C5 (as amended): [evaluateFormula] on "a / 0" with a = 10 returns the
    string "Infinity". *)
Theorem division_by_zero_prints_Infinity :
  evaluateFormula (js "a / 0") [(js "a", floatOfZ 10)] = Some (js "Infinity").
Proof. vm_compute. reflexivity. Qed.

(** ** Decimal numerals *)

Lemma digitsValue_snoc ds d : digitsValue (ds ++ [d]) = 10 * digitsValue ds + (Z.of_N d - 48).
Proof. unfold digitsValue. rewrite fold_left_app. reflexivity. Qed.

Lemma digitsValue_app ds es :
  digitsValue (ds ++ es) = digitsValue ds * 10 ^ Z.of_nat (length es) + digitsValue es.
Proof.
  induction es as [|e es IH] using rev_ind.
  - rewrite app_nil_r. simpl. unfold digitsValue at 3; simpl. lia.
  - rewrite app_assoc, !digitsValue_snoc, IH, length_app.
    change (length [e]) with 1%nat.
    rewrite Nat2Z.inj_add, Z.pow_add_r by lia.
    change (10 ^ Z.of_nat 1) with 10. ring.
Qed.

Lemma digitsValue_zeros k ds : digitsValue (repeat 48%N k ++ ds) = digitsValue ds.
Proof.
  rewrite digitsValue_app.
  assert (H : digitsValue (repeat 48%N k) = 0).
  { induction k as [|k IH]; [reflexivity|].
    replace (repeat 48%N (S k)) with (repeat 48%N k ++ [48%N]).
    - rewrite digitsValue_snoc, IH. reflexivity.
    - change [48%N] with (repeat 48%N 1). rewrite <- repeat_app.
      f_equal. lia. }
  rewrite H. lia.
Qed.

Lemma digitsRev_spec fuel : forall n,
  0 <= n < 2 ^ Z.of_nat fuel -> (0 < fuel)%nat ->
  Forall isDigitCode (rev (digitsRev fuel n)) /\
  digitsRev fuel n <> [] /\
  digitsValue (rev (digitsRev fuel n)) = n.
Proof.
  induction fuel as [|fuel IH]; intros n Hn Hfuel.
  - lia.
  - cbn [digitsRev]. destruct (Z.ltb_spec n 10) as [Hlt|Hge].
    + split; [|split]; [| discriminate |].
      * constructor; [|constructor]. unfold isDigitCode. lia.
      * unfold digitsValue; cbn [fold_left rev app]. lia.
    + assert (Hq : 0 <= n / 10 < 2 ^ Z.of_nat fuel).
      { rewrite Nat2Z.inj_succ, Z.pow_succ_r in Hn by lia.
        split; [apply Z.div_pos; lia|].
        apply Z.div_lt_upper_bound; lia. }
      assert (Hpos : (0 < fuel)%nat).
      { destruct fuel; [simpl in Hn; lia | lia]. }
      destruct (IH _ Hq Hpos) as (Hd & _ & Hv).
      split; [|split]; [| discriminate |].
      * cbn [rev]. apply Forall_app. split; [exact Hd|].
        constructor; [|constructor]. unfold isDigitCode.
        assert (0 <= n mod 10 < 10) by (apply Z.mod_pos_bound; lia). lia.
      * cbn [rev]. rewrite digitsValue_snoc, Hv.
        assert (0 <= n mod 10 < 10) by (apply Z.mod_pos_bound; lia).
        rewrite Z2N.id by lia. rewrite (Z.div_mod n 10) at 3 by lia. lia.
Qed.

Lemma decimal_spec n :
  0 <= n ->
  Forall isDigitCode (decimal n) /\ decimal n <> [] /\ digitsValue (decimal n) = n.
Proof.
  intros Hn. unfold decimal.
  assert (Hb : 0 <= n < 2 ^ Z.of_nat (S (Z.to_nat (Z.log2 n)))).
  { rewrite Nat2Z.inj_succ, Z2Nat.id by apply Z.log2_nonneg.
    destruct (Z.eq_dec n 0) as [->|Hnz]; [simpl; lia|].
    split; [lia|]. apply Z.log2_spec. lia. }
  destruct (digitsRev_spec _ _ Hb (Nat.lt_0_succ _)) as (H1 & H2 & H3).
  split; [exact H1|]. split; [|exact H3].
  intros E. apply H2. apply (f_equal (@rev N)) in E.
  rewrite rev_involutive in E. exact E.
Qed.

Lemma digitsRev_length fuel : forall n k,
  0 <= n < 10 ^ Z.of_nat (S k) -> (length (digitsRev fuel n) <= S k)%nat.
Proof.
  induction fuel as [|fuel IH]; intros n k Hn; simpl; [lia|].
  destruct (Z.ltb_spec n 10) as [Hlt|Hge]; simpl; [lia|].
  destruct k as [|k]; [simpl in Hn; lia|].
  apply le_n_S. apply IH.
  rewrite (Nat2Z.inj_succ (S k)), Z.pow_succ_r in Hn by lia.
  split; [apply Z.div_pos; lia|]. apply Z.div_lt_upper_bound; lia.
Qed.

(** The fraction part of [toFixed(2)]: two digits reading [r]. *)
Lemma padLeft_two r :
  0 <= r < 100 ->
  exists d1 d2, padLeft 2 (decimal r) = [d1; d2] /\
                isDigitCode d1 /\ isDigitCode d2 /\ digitsValue [d1; d2] = r.
Proof.
  intros Hr. destruct (decimal_spec r (proj1 Hr)) as (Hd & Hne & Hv).
  assert (Hlen : (length (decimal r) <= 2)%nat).
  { unfold decimal. rewrite length_rev. apply digitsRev_length. simpl. lia. }
  unfold padLeft. destruct (decimal r) as [|a [|b [|c l]]] eqn:E.
  - congruence.
  - exists 48%N, a. simpl. split; [reflexivity|].
    inversion Hd; subst. unfold isDigitCode in *.
    split; [lia|]. split; [assumption|]. unfold digitsValue in *; simpl in *. lia.
  - exists a, b. simpl. split; [reflexivity|].
    inversion Hd as [|? ? Ha Hd']; subst. inversion Hd'; subst. auto.
  - simpl in Hlen. lia.
Qed.

(** [fixedDigits n 2] is a numeral with two decimal places reading [n]. *)
Lemma fixedDigits_two n :
  0 <= n ->
  exists ip d1 d2,
    fixedDigits n 2 = ip ++ [46; d1; d2]%N /\ ip <> [] /\
    Forall isDigitCode (ip ++ [d1; d2]) /\
    digitsValue (ip ++ [d1; d2]) = n.
Proof.
  intros Hn. unfold fixedDigits.
  change (10 ^ Z.of_nat 2) with 100.
  assert (Hq : 0 <= n / 100) by (apply Z.div_pos; lia).
  assert (Hr : 0 <= n mod 100 < 100) by (apply Z.mod_pos_bound; lia).
  destruct (decimal_spec _ Hq) as (Hd & Hne & Hv).
  destruct (padLeft_two _ Hr) as (d1 & d2 & Ep & H1 & H2 & Hv2).
  exists (decimal (n / 100)), d1, d2. rewrite Ep.
  split; [reflexivity|]. split; [exact Hne|]. split.
  - apply Forall_app. split; [exact Hd|].
    constructor; [exact H1|]. constructor; [exact H2|constructor].
  - rewrite digitsValue_app, Hv, Hv2. simpl (Z.of_nat _).
    rewrite (Z.div_mod n 100) at 3 by lia. lia.
Qed.

(** ** Rounding to two decimal places *)

Lemma Qfloor_unique q n :
  (inject_Z n <= q)%Q -> (q < inject_Z (n + 1))%Q -> Qfloor q = n.
Proof.
  intros Hlo Hhi.
  assert (H1 : (inject_Z (Qfloor q) < inject_Z (n + 1))%Q)
    by (eapply Qle_lt_trans; [apply Qfloor_le|exact Hhi]).
  assert (H2 : (inject_Z n < inject_Z (Qfloor q + 1))%Q)
    by (eapply Qle_lt_trans; [exact Hlo|apply Qlt_floor]).
  rewrite <- Zlt_Qlt in H1, H2. lia.
Qed.

Lemma scaled_nonneg_exp m e :
  0 <= e -> (inject_Z m * 2 ^ e == inject_Z (m * 2 ^ e))%Q.
Proof.
  intros He. rewrite inject_Z_mult, (Zpower_Qpower 2 e He). reflexivity.
Qed.

Lemma scaled_neg_exp m e :
  e < 0 -> (inject_Z m * 2 ^ e == inject_Z m / inject_Z (2 ^ (- e)))%Q.
Proof.
  intros He. replace e with (- (- e)) at 1 by lia.
  rewrite Qpower_opp, (Zpower_Qpower 2 (- e)) by lia. reflexivity.
Qed.

Lemma floorScaled_floor m e :
  floorScaled m e = Qfloor (inject_Z m * 2 ^ e).
Proof.
  unfold floorScaled. destruct (Z.leb_spec 0 e) as [He|He].
  - rewrite (Qfloor_comp _ _ (scaled_nonneg_exp m e He)), Qfloor_Z. reflexivity.
  - rewrite (Qfloor_comp _ _ (scaled_neg_exp m e He)). apply Zdiv_Qdiv.
Qed.

Lemma roundScaled_floor m e :
  roundScaled m e 2 = Qfloor (inject_Z m * 2 ^ e * 100 + (1 # 2)).
Proof.
  unfold roundScaled. change (10 ^ Z.of_nat 2) with 100.
  destruct (Z.leb_spec 0 e) as [He|He].
  - symmetry. apply Qfloor_unique.
    + rewrite (scaled_nonneg_exp m e He), !inject_Z_mult.
      change (inject_Z 100) with 100%Q. lra.
    + rewrite (scaled_nonneg_exp m e He), inject_Z_plus, !inject_Z_mult.
      change (inject_Z 100) with 100%Q. change (inject_Z 1) with 1%Q. lra.
  - assert (HD : 0 < 2 ^ (- e)) by (apply Z.pow_pos_nonneg; lia).
    rewrite Zdiv_Qdiv. apply Qfloor_comp.
    rewrite (scaled_neg_exp m e He).
    rewrite inject_Z_plus, !inject_Z_mult.
    change (inject_Z 2) with 2%Q. change (inject_Z 100) with 100%Q.
    assert (Hnz : ~ (inject_Z (2 ^ (- e)) == 0)%Q).
    { intros E. assert (H0 : (0 < inject_Z (2 ^ (- e)))%Q)
        by (change 0%Q with (inject_Z 0); rewrite <- Zlt_Qlt; exact HD).
      rewrite E in H0. apply (Qlt_irrefl 0). exact H0. }
    field. exact Hnz.
Qed.

Lemma scaled_pos (m : positive) e : (0 < inject_Z (Zpos m) * 2 ^ e)%Q.
Proof.
  apply Qmult_lt_0_compat; [reflexivity | apply Qpower_0_lt; reflexivity].
Qed.

Lemma exactValue_not_NaN v q : exactValue v = Some q -> isNaN v = false.
Proof.
  unfold exactValue, isNaN. destruct (Prim2SF v); try discriminate; reflexivity.
Qed.

(** [toFixed(2)] of a finite number of magnitude below 10^21 shows it with
    two decimal places. *)
Lemma toFixed_two v q :
  exactValue v = Some q -> (Qabs q < inject_Z (10 ^ 21))%Q ->
  exists s, toFixed v 2 = Some s /\ formatsToTwoDecimals q s.
Proof.
  unfold exactValue, toFixed. destruct (Prim2SF v) as [sg| | |neg m e];
    try discriminate; intros E Hbig; injection E as <-.
  - destruct (fixedDigits_two 0 (Z.le_refl 0)) as (ip & d1 & d2 & Es & Hne & Hd & Hv).
    eexists. split; [reflexivity|]. exists ip, d1, d2. rewrite Es, Hv.
    split; [reflexivity|]. split; [exact Hne|]. split; [exact Hd|].
    split; vm_compute; congruence.
  - set (a := (inject_Z (Zpos m) * 2 ^ e)%Q) in *.
    assert (Ha : (0 < a)%Q) by apply scaled_pos.
    assert (Habs : (Qabs (inject_Z (if neg then Z.neg m else Z.pos m) * 2 ^ e) == a)%Q).
    { destruct neg.
      - change (Z.neg m) with (- Z.pos m). rewrite inject_Z_opp.
        setoid_replace (- inject_Z (Z.pos m) * 2 ^ e)%Q with (- a)%Q
          by (unfold a; ring).
        rewrite Qabs_opp. apply Qabs_pos. lra.
      - apply Qabs_pos. fold a. lra. }
    rewrite Habs in Hbig.
    assert (Hfl : floorScaled (Z.pos m) e < 10 ^ 21).
    { rewrite floorScaled_floor. fold a. rewrite Zlt_Qlt.
      eapply Qle_lt_trans; [apply Qfloor_le|exact Hbig]. }
    destruct (Z.leb_spec (10 ^ 21) (floorScaled (Z.pos m) e)) as [Hle|_]; [lia|].
    set (n := roundScaled (Z.pos m) e 2).
    assert (En : n = Qfloor (a * 100 + (1 # 2))) by apply roundScaled_floor.
    assert (Hn : 0 <= n).
    { rewrite En. change 0 with (Qfloor 0). apply Qfloor_resp_le. lra. }
    destruct (fixedDigits_two n Hn) as (ip & d1 & d2 & Es & Hne & Hd & Hv).
    eexists. split; [reflexivity|]. exists ip, d1, d2. rewrite Es, Hv.
    split; [|split; [exact Hne|split; [exact Hd|]]].
    + f_equal. destruct neg.
      * assert (Hq : Qle_bool 0 (inject_Z (Z.neg m) * 2 ^ e) = false).
        { destruct (Qle_bool 0 (inject_Z (Z.neg m) * 2 ^ e)) eqn:Eb; [|reflexivity].
          apply Qle_bool_iff in Eb. exfalso.
          change (Z.neg m) with (- Z.pos m) in Eb. rewrite inject_Z_opp in Eb.
          setoid_replace (- inject_Z (Z.pos m) * 2 ^ e)%Q with (- a)%Q in Eb
            by (unfold a; ring).
          lra. }
        rewrite Hq. reflexivity.
      * assert (Hq : Qle_bool 0 (inject_Z (Z.pos m) * 2 ^ e) = true)
          by (apply Qle_bool_iff; fold a; lra).
        rewrite Hq. reflexivity.
    + rewrite Habs, En. split; [apply Qfloor_le | apply Qlt_floor].
Qed.

(** C9 (as stated) fails in its general part: "a / 0" with a = 10
    evaluates without exception to Infinity, which is not NaN, and the
    string returned shows no decimal places. *)
Lemma infinite_result_has_no_decimal_places :
  ~ (forall formula variables result,
       arithFunction (map fst variables) (js "return " ++ formula) (map snd variables)
       = Returns result ->
       isNaN result = false ->
       exists s, evaluateFormula formula variables = Some s /\ hasTwoDecimals s).
Proof.
  intros H.
  destruct (arithFunction (map fst [(js "a", floatOfZ 10)])
                          (js "return " ++ js "a / 0")
                          (map snd [(js "a", floatOfZ 10)])) as [|result|] eqn:Hcall;
    try (vm_compute in Hcall; discriminate).
  destruct (H (js "a / 0") [(js "a", floatOfZ 10)] result Hcall) as (s & Hs & Hfmt).
  - vm_compute in Hcall. injection Hcall as <-. vm_compute. reflexivity.
  - destruct Hfmt as (sign & ip & d1 & d2 & E & _).
    assert (Hdot : In 46%N s).
    { rewrite E. apply in_or_app. right. apply in_or_app. right. left. reflexivity. }
    vm_compute in Hs. injection Hs as <-.
    vm_compute in Hdot. repeat (destruct Hdot as [Hdot|Hdot]; [discriminate|]).
    exact Hdot.
Qed.

(** C9 (as amended): "a + b" with a = 10 and b = 5 evaluates to "15.00";
    whenever the formula passes the character test and its evaluation
    returns a finite number of magnitude below 10^21, the string returned
    shows that number rounded to two decimal places; and whenever it
    returns plus or minus infinity, the string returned is "Infinity" or
    "-Infinity". *)
Theorem finite_result_is_shown_with_two_decimals :
  evaluateFormula (js "a + b") [(js "a", floatOfZ 10); (js "b", floatOfZ 5)]
  = Some (js "15.00") /\
  (forall (newFunction : hostFunction) formula variables result q,
     formulaRegExpTest formula = true ->
     newFunction (map fst variables) (js "return " ++ formula) (map snd variables)
     = Returns result ->
     exactValue result = Some q -> (Qabs q < inject_Z (10 ^ 21))%Q ->
     exists s, evaluateFormulaWith newFunction formula variables = Some s /\
               formatsToTwoDecimals q s) /\
  (forall (newFunction : hostFunction) formula variables result negative,
     formulaRegExpTest formula = true ->
     newFunction (map fst variables) (js "return " ++ formula) (map snd variables)
     = Returns result ->
     infinite result negative ->
     evaluateFormulaWith newFunction formula variables
     = Some (if negative then js "-Infinity" else js "Infinity")).
Proof.
  split; [vm_compute; reflexivity|]. split.
  - intros newFunction formula variables result q Htest Hcall Hq Hbig.
    unfold evaluateFormulaWith. rewrite Htest, Hcall. cbn [negb].
    rewrite (exactValue_not_NaN _ _ Hq). apply toFixed_two; assumption.
  - intros newFunction formula variables result negative Htest Hcall Hinf.
    unfold evaluateFormulaWith. rewrite Htest, Hcall. cbn [negb].
    unfold infinite in Hinf. unfold isNaN, toFixed. rewrite Hinf.
    destruct negative; reflexivity.
Qed.

Lemma finite_result_is_shown_with_two_decimals_witness :
  exists q, evaluateFormula (js "a - b - 3 * (2 + a) / 4")
                            [(js "a", floatOfZ 10); (js "b", floatOfZ 5)]
            = Some (js "-4.00") /\
            (q == - 4)%Q /\ formatsToTwoDecimals q (js "-4.00") /\
            evaluateFormula (js "-a / 0") [(js "a", floatOfZ 10)]
            = Some (js "-Infinity").
Proof.
  destruct finite_result_is_shown_with_two_decimals as (_ & Hfinite & Hinfinite).
  destruct (Hfinite arithFunction
                  (js "a - b - 3 * (2 + a) / 4")
                  [(js "a", floatOfZ 10); (js "b", floatOfZ 5)]
                  (floatOfZ (- 4)) _
                  ltac:(vm_compute; reflexivity) ltac:(vm_compute; reflexivity)
                  ltac:(vm_compute; reflexivity) ltac:(vm_compute; reflexivity))
    as (s & Hs & Hfmt).
  assert (Es : Some s = Some (js "-4.00")).
  { rewrite <- Hs. vm_compute. reflexivity. }
  injection Es as ->.
  eexists. split; [vm_compute; reflexivity|]. split; [|split; [exact Hfmt|]].
  - vm_compute. reflexivity.
  - apply (Hinfinite arithFunction (js "-a / 0") [(js "a", floatOfZ 10)]
                     (- floatOfZ 10 / 0)%float true);
      vm_compute; reflexivity.
Defined.

(** * Further properties of the component *)

(** ** Random scores and names *)

Lemma isRandom_spec r : isRandom r = true <-> (0 <= r /\ r < 1)%Q.
Proof.
  unfold isRandom. rewrite andb_true_iff, negb_true_iff, Qle_bool_iff.
  split; intros (H0 & H1); split; auto.
  - apply Qnot_le_lt. intros Hle. apply Qle_bool_iff in Hle. congruence.
  - destruct (Qle_bool 1 r) eqn:E; [|reflexivity].
    apply Qle_bool_iff in E. exfalso. apply (Qlt_irrefl r).
    eapply Qlt_le_trans; eauto.
Qed.

(** X1: for values of [Math.random()], [generateRandomScore] is an
    integer from 0 to 100, and a larger random value never gives a
    smaller score. *)
Theorem generateRandomScore_stays_in_0_to_100 (r r' : Q) :
  isRandom r = true -> isRandom r' = true -> (r <= r')%Q ->
  0 <= generateRandomScore r /\
  generateRandomScore r <= generateRandomScore r' /\
  generateRandomScore r' <= 100.
Proof.
  intros Hr Hr' Hle.
  split; [apply generateRandomScore_range; exact Hr|].
  split; [|apply generateRandomScore_range; exact Hr'].
  unfold generateRandomScore. apply Qfloor_resp_le.
  apply Qmult_le_compat_r; [exact Hle|discriminate].
Qed.

Lemma generateRandomScore_stays_in_0_to_100_witness :
  0 <= generateRandomScore (1 # 4) /\
  generateRandomScore (1 # 4) <= generateRandomScore (999 # 1000) /\
  generateRandomScore (999 # 1000) <= 100.
Proof.
  apply (generateRandomScore_stays_in_0_to_100 (1 # 4) (999 # 1000) eq_refl eq_refl).
  unfold Qle; simpl. lia.
Defined.

Lemma SIMPLE_NAMES_nonempty s : In s SIMPLE_NAMES -> s <> [].
Proof.
  intros H E. subst s. vm_compute in H.
  repeat (destruct H as [H|H]; [discriminate|]). exact H.
Qed.

Lemma SIMPLE_NAMES_NoDup : NoDup SIMPLE_NAMES.
Proof.
  assert (H : forallb (fun s => Nat.eqb (count_occ (list_eq_dec N.eq_dec) SIMPLE_NAMES s) 1)
                      SIMPLE_NAMES = true) by (vm_compute; reflexivity).
  apply (proj2 (NoDup_count_occ' (list_eq_dec N.eq_dec) SIMPLE_NAMES)).
  intros s Hs. rewrite forallb_forall in H. apply Nat.eqb_eq. auto.
Qed.

Lemma existsb_str_In s l : existsb (str_eqb s) l = true <-> In s l.
Proof.
  rewrite existsb_exists. split.
  - intros (t & Ht & E). apply str_eqb_eq in E. subst. exact Ht.
  - intros H. exists s. split; [exact H|apply str_eqb_refl].
Qed.

Lemma randomIndex_lt r n :
  isRandom r = true -> (0 < n)%nat ->
  (Z.to_nat (Qfloor (r * inject_Z (Z.of_nat n))) < n)%nat.
Proof.
  intros Hr Hn. apply isRandom_spec in Hr. destruct Hr as (H0 & H1).
  assert (Hpos : (0 < inject_Z (Z.of_nat n))%Q).
  { change 0%Q with (inject_Z 0). rewrite <- Zlt_Qlt. lia. }
  assert (Hlo : 0 <= Qfloor (r * inject_Z (Z.of_nat n))).
  { change 0 with (Qfloor 0). apply Qfloor_resp_le.
    apply Qmult_le_0_compat; [exact H0 | apply Qlt_le_weak; exact Hpos]. }
  assert (Hhi : Qfloor (r * inject_Z (Z.of_nat n)) < Z.of_nat n).
  { rewrite Zlt_Qlt. eapply Qle_lt_trans; [apply Qfloor_le|].
    setoid_replace (inject_Z (Z.of_nat n)) with (1 * inject_Z (Z.of_nat n))%Q at 2
      by ring.
    apply Qmult_lt_compat_r; assumption. }
  lia.
Qed.

(** The name drawn when some name of the list is free. *)
Lemma generateRandomName_available ws r :
  isRandom r = true ->
  filter (fun s => negb (existsb (str_eqb s) (map name ws))) SIMPLE_NAMES <> [] ->
  In (generateRandomName ws r) SIMPLE_NAMES /\
  ~ In (generateRandomName ws r) (map name ws).
Proof.
  intros Hr Hne. unfold generateRandomName.
  set (avail := filter _ SIMPLE_NAMES) in *.
  assert (Hlen : (0 < length avail)%nat)
    by (destruct avail; [congruence | simpl; lia]).
  destruct (nth_error avail (Z.to_nat (Qfloor (r * inject_Z (Z.of_nat (length avail))))))
    as [s|] eqn:E.
  - apply nth_error_In in E. apply filter_In in E. destruct E as (Hin & Hfree).
    apply negb_true_iff in Hfree.
    assert (Hs : s <> []) by (apply SIMPLE_NAMES_nonempty; exact Hin).
    destruct s as [|c s]; [congruence|]. split; [exact Hin|].
    intros Hused. apply existsb_str_In in Hused. congruence.
  - apply nth_error_None in E.
    pose proof (randomIndex_lt r (length avail) Hr Hlen). lia.
Qed.

Lemma fewer_than_12_leaves_a_name ws :
  (length ws < 12)%nat ->
  filter (fun s => negb (existsb (str_eqb s) (map name ws))) SIMPLE_NAMES <> [].
Proof.
  intros Hlen E.
  assert (Hincl : incl SIMPLE_NAMES (map name ws)).
  { intros s Hs. apply existsb_str_In.
    destruct (existsb (str_eqb s) (map name ws)) eqn:Hex; [reflexivity|].
    assert (Hin : In s (filter (fun s => negb (existsb (str_eqb s) (map name ws)))
                               SIMPLE_NAMES))
      by (apply filter_In; split; [exact Hs | rewrite Hex; reflexivity]).
    rewrite E in Hin. destruct Hin. }
  pose proof (NoDup_incl_length SIMPLE_NAMES_NoDup Hincl) as Hle.
  rewrite length_map in Hle. change (length SIMPLE_NAMES) with 12%nat in Hle. lia.
Qed.

(** X2: with fewer than 12 widgets in the store, or more generally with
    a name of the list that no widget has, [generateRandomName] returns a
    name of the list that no widget of the store has. *)
Theorem generateRandomName_is_unused (ws : list Widget) (r : Q) :
  isRandom r = true ->
  (length ws < 12)%nat \/ (exists s, In s SIMPLE_NAMES /\ ~ In s (map name ws)) ->
  In (generateRandomName ws r) SIMPLE_NAMES /\
  forall w, In w ws -> name w <> generateRandomName ws r.
Proof.
  intros Hr Hfree.
  assert (Hne : filter (fun s => negb (existsb (str_eqb s) (map name ws)))
                       SIMPLE_NAMES <> []).
  { destruct Hfree as [Hlen|(s & Hs & Hun)].
    - apply fewer_than_12_leaves_a_name. exact Hlen.
    - intros E.
      assert (Hin : In s (filter (fun s => negb (existsb (str_eqb s) (map name ws)))
                                 SIMPLE_NAMES)).
      { apply filter_In. split; [exact Hs|]. apply negb_true_iff.
        destruct (existsb (str_eqb s) (map name ws)) eqn:Hex; [|reflexivity].
        apply existsb_str_In in Hex. contradiction. }
      rewrite E in Hin. destruct Hin. }
  destruct (generateRandomName_available ws r Hr Hne) as (Hin & Hun).
  split; [exact Hin|]. intros w Hw E. apply Hun. rewrite <- E.
  apply in_map. exact Hw.
Qed.

Lemma generateRandomName_is_unused_witness :
  let ws := [sampleScore 1000 "cat" 0 0; sampleScore 2000 "dog" 2 0] in
  In (generateRandomName ws (1 # 3)) SIMPLE_NAMES /\
  forall w, In w ws -> name w <> generateRandomName ws (1 # 3).
Proof.
  intros ws. apply (generateRandomName_is_unused ws (1 # 3) eq_refl).
  left. simpl. lia.
Defined.

(** X3: when every name of the list is the name of some widget,
    [generateRandomName] returns "x", whether or not a widget is already
    called "x". *)
Theorem generateRandomName_falls_back_to_x (ws : list Widget) (r : Q) :
  (forall s, In s SIMPLE_NAMES -> In s (map name ws)) ->
  generateRandomName ws r = js "x".
Proof.
  intros Hall. unfold generateRandomName.
  assert (E : filter (fun s => negb (existsb (str_eqb s) (map name ws))) SIMPLE_NAMES = []).
  { destruct (filter _ SIMPLE_NAMES) as [|s l] eqn:Ef; [reflexivity|].
    assert (Hin : In s (s :: l)) by (left; reflexivity).
    rewrite <- Ef in Hin. apply filter_In in Hin. destruct Hin as (Hs & Hfree).
    apply negb_true_iff in Hfree. apply Hall in Hs.
    apply existsb_str_In in Hs. congruence. }
  rewrite E. destruct (Z.to_nat _); reflexivity.
Qed.

Lemma generateRandomName_falls_back_to_x_witness :
  generateRandomName (twelveScores ++ [withName (sampleScore 2 "a" 0 0) (js "x")])
                     (1 # 2)
  = js "x".
Proof.
  apply generateRandomName_falls_back_to_x.
  intros s Hs. rewrite map_app. apply in_or_app. left.
  exact Hs.
Defined.

(** ** The character test and the shape of the results *)

Lemma allowed_formulaChar c : allowedInFormula c -> formulaChar c = true.
Proof.
  unfold allowedInFormula, formulaChar, isLower, isUpper, isDigit, inRange.
  intros [H|[H|[H|[H|H]]]].
  - assert (E : (N.leb 65 c && N.leb c 90)%bool = true)
      by (rewrite andb_true_iff, !N.leb_le; exact H).
    rewrite E, !orb_true_r. reflexivity.
  - assert (E : (N.leb 97 c && N.leb c 122)%bool = true)
      by (rewrite andb_true_iff, !N.leb_le; exact H).
    rewrite E. reflexivity.
  - assert (E : (N.leb 48 c && N.leb c 57)%bool = true)
      by (rewrite andb_true_iff, !N.leb_le; exact H).
    rewrite E, !orb_true_r. reflexivity.
  - assert (E : existsb (N.eqb c) (js "+-*/().") = true).
    { apply existsb_exists. exists c. split; [|apply N.eqb_refl].
      vm_compute. vm_compute in H. tauto. }
    rewrite E, !orb_true_r. reflexivity.
  - rewrite H, !orb_true_r. reflexivity.
Qed.

(** X4: the character test of [evaluateFormula] passes exactly the
    non-empty formulas made of letters, digits, [+ - * / ( ) .] and white
    space. *)
Theorem formula_test_passes_exactly_allowed_text (formula : jsstring) :
  formulaRegExpTest formula = true <->
  formula <> [] /\ Forall allowedInFormula formula.
Proof.
  split.
  - intros H. split.
    + intros E. subst formula. discriminate H.
    + apply Forall_forall. intros c Hc. apply formulaChar_allowed.
      eapply formulaRegExpTest_all; eauto.
  - intros (Hne & Hall). unfold formulaRegExpTest.
    destruct formula as [|c l]; [congruence|].
    apply forallb_forall. intros d Hd. apply allowed_formulaChar.
    exact (proj1 (Forall_forall _ _) Hall d Hd).
Qed.

Lemma roundScaled_nonneg (m : positive) e : 0 <= roundScaled (Zpos m) e 2.
Proof.
  rewrite roundScaled_floor. change 0 with (Qfloor 0). apply Qfloor_resp_le.
  pose proof (scaled_pos m e). lra.
Qed.

Lemma fixedDigits_hasTwoDecimals n sign :
  0 <= n -> sign = [] \/ sign = js "-" ->
  hasTwoDecimals (sign ++ fixedDigits n 2).
Proof.
  intros Hn Hsign.
  destruct (fixedDigits_two n Hn) as (ip & d1 & d2 & E & Hne & Hd & _).
  exists sign, ip, d1, d2. rewrite E. auto.
Qed.

Lemma formatsToTwoDecimals_shape q s : formatsToTwoDecimals q s -> hasTwoDecimals s.
Proof.
  intros (ip & d1 & d2 & E & Hne & Hd & _).
  exists (if Qle_bool 0 q then [] else js "-"), ip, d1, d2.
  split; [exact E|]. split; [destruct (Qle_bool 0 q); auto|]. auto.
Qed.

(** X5: when the host throws or returns a number, and the number is not
    a finite one of magnitude 10^21 or more (which [toFixed] prints in
    exponential notation), [evaluateFormula] returns a string, and that
    string is the error marker, "Infinity", "-Infinity", or a numeral with
    exactly two decimal places. *)
Theorem evaluateFormula_result_shapes
    (newFunction : hostFunction) (formula : jsstring)
    (variables : list (jsstring * float)) :
  let outcome :=
    newFunction (map fst variables) (js "return " ++ formula) (map snd variables) in
  outcome <> Unmodelled ->
  (forall result q, outcome = Returns result -> exactValue result = Some q ->
                    (Qabs q < inject_Z (10 ^ 21))%Q) ->
  exists s,
    evaluateFormulaWith newFunction formula variables = Some s /\
    (s = ErrorMarker \/ s = js "Infinity" \/ s = js "-Infinity" \/ hasTwoDecimals s).
Proof.
  intros outcome Hmodelled Hsmall. unfold evaluateFormulaWith.
  destruct (negb (formulaRegExpTest formula));
    [exists ErrorMarker; split; [reflexivity|left; reflexivity]|].
  fold outcome. destruct outcome as [|result|] eqn:Hout;
    [exists ErrorMarker; split; [reflexivity|left; reflexivity]| |congruence].
  destruct (exactValue result) as [q|] eqn:Hq.
  - rewrite (exactValue_not_NaN _ _ Hq).
    destruct (toFixed_two result q Hq (Hsmall result q eq_refl Hq)) as (s & Hs & Hfmt).
    exists s. split; [exact Hs|]. right; right; right.
    eapply formatsToTwoDecimals_shape; eauto.
  - unfold exactValue in Hq. unfold isNaN, toFixed.
    destruct (Prim2SF result) as [sg|[|]| |neg m e]; try discriminate.
    + exists (js "-Infinity"). split; [reflexivity|]. right; right; left. reflexivity.
    + exists (js "Infinity"). split; [reflexivity|]. right; left. reflexivity.
    + exists ErrorMarker. split; [reflexivity|]. left. reflexivity.
Qed.

Lemma evaluateFormula_result_shapes_witness :
  exists s, evaluateFormula (js "0.1 + 0.2") [] = Some s /\ hasTwoDecimals s.
Proof.
  destruct (evaluateFormula_result_shapes arithFunction (js "0.1 + 0.2") [])
    as (s & Hs & Hshape).
  - vm_compute. discriminate.
  - intros result q Hret Hq. vm_compute in Hret. injection Hret as <-.
    vm_compute in Hq. injection Hq as <-. reflexivity.
  - exists s. split; [exact Hs|].
    assert (E : Some s = Some (js "0.30")) by (rewrite <- Hs; vm_compute; reflexivity).
    injection E as ->.
    destruct Hshape as [H|[H|[H|H]]]; try (vm_compute in H; discriminate). exact H.
Defined.

(** ** Drags *)

Lemma Qfloor_add_Z z t : Qfloor (inject_Z z + t) = z + Qfloor t.
Proof.
  apply Qfloor_unique.
  - rewrite inject_Z_plus. pose proof (Qfloor_le t). lra.
  - replace (z + Qfloor t + 1) with (z + (Qfloor t + 1)) by lia.
    rewrite inject_Z_plus. pose proof (Qlt_floor t). lra.
Qed.

Lemma cellOf_grab cell (p g o d : Q) :
  cellOf (p + d) g (p - (g + inject_Z (CELL_SIZE * cell) + o))
  = cell + Qfloor ((o + d) / 100).
Proof.
  unfold cellOf. rewrite <- Qfloor_add_Z. apply Qfloor_comp.
  unfold CELL_SIZE. rewrite inject_Z_mult.
  change (inject_Z 100) with 100%Q. field.
Qed.

Lemma Qfloor_within_cell o : (0 <= o)%Q -> (o < 100)%Q -> Qfloor (o / 100) = 0.
Proof.
  intros H0 H1. apply Qfloor_unique.
  - change (inject_Z 0) with 0%Q. apply Qle_shift_div_l; [reflexivity|]. lra.
  - change (inject_Z (0 + 1)) with 1%Q. apply Qlt_shift_div_r; [reflexivity|]. lra.
Qed.

(** X6: with whole-pixel coordinates, a widget picked up at a point of
    its element follows the pointer by whole cells: the candidate cell is
    the widget's cell plus the floor of (offset of the element in its
    cell + pointer displacement) / CELL_SIZE, clamped to the grid; for a
    widget inside the grid whose element starts within its cell, a
    pointer that has not moved gives the widget's own cell. *)
Theorem drag_follows_pointer_by_cells
    (s : State) (w : Widget) (px py gx gy ox oy : Z) :
  inGrid w -> 0 <= ox < 100 -> 0 <= oy < 100 ->
  screenPixel px -> screenPixel py -> screenPixel gx -> screenPixel gy ->
  exists d,
    draggingWidget
      (handleDragStart s
         (grabAt w (inject_Z px) (inject_Z py) (inject_Z gx) (inject_Z gy)
                 (inject_Z ox) (inject_Z oy)) w false) = Some d /\
    (forall dx dy, screenPixel dx -> screenPixel dy ->
       candidateCell (hoverAt (inject_Z px) (inject_Z py) (inject_Z gx) (inject_Z gy)
                              (inject_Z dx) (inject_Z dy)) d
       = (clampCell (x w + (ox + dx) / 100) (GRID_COLS - width w),
          clampCell (y w + (oy + dy) / 100) (GRID_ROWS - height w))) /\
    candidateCell (hoverAt (inject_Z px) (inject_Z py) (inject_Z gx) (inject_Z gy) 0 0) d
    = (x w, y w).
Proof.
  intros (Hx & Hy & Hr & Hb) Hox Hoy _ _ _ _.
  eexists. split; [reflexivity|].
  assert (Hgen : forall dx dy,
    candidateCell (hoverAt (inject_Z px) (inject_Z py) (inject_Z gx) (inject_Z gy)
                           (inject_Z dx) (inject_Z dy))
      {| dragged := w; isNew := false;
         offsetX := clientX (grabAt w (inject_Z px) (inject_Z py) (inject_Z gx)
                                    (inject_Z gy) (inject_Z ox) (inject_Z oy))
                    - rectLeft (grabAt w (inject_Z px) (inject_Z py) (inject_Z gx)
                                       (inject_Z gy) (inject_Z ox) (inject_Z oy));
         offsetY := clientY (grabAt w (inject_Z px) (inject_Z py) (inject_Z gx)
                                    (inject_Z gy) (inject_Z ox) (inject_Z oy))
                    - rectTop (grabAt w (inject_Z px) (inject_Z py) (inject_Z gx)
                                      (inject_Z gy) (inject_Z ox) (inject_Z oy)) |}
    = (clampCell (x w + (ox + dx) / 100) (GRID_COLS - width w),
       clampCell (y w + (oy + dy) / 100) (GRID_ROWS - height w))).
  { intros dx dy. unfold candidateCell, hoverAt, grabAt.
    cbn [clientX clientY rectLeft rectTop offsetX offsetY dragged].
    rewrite !cellOf_grab, <- !inject_Z_plus.
    change 100%Q with (inject_Z 100). rewrite <- !Zdiv_Qdiv. reflexivity. }
  split; [intros dx dy _ _; apply Hgen|].
  change 0%Q with (inject_Z 0). rewrite Hgen. rewrite !Z.add_0_r.
  rewrite !Z.div_small by lia.
  unfold clampCell. f_equal; lia.
Qed.

Lemma drag_follows_pointer_by_cells_witness :
  let px := inject_Z 350 in
  let py := inject_Z 420 in
  let gx := inject_Z 20 in
  let gy := inject_Z 10 in
  exists d,
    draggingWidget
      (handleDragStart initialState
         (grabAt (sampleScore 1000 "cat" 3 4) px py gx gy (inject_Z 1) (inject_Z 1))
         (sampleScore 1000 "cat" 3 4) false) = Some d /\
    candidateCell (hoverAt px py gx gy 0 0) d = (3, 4) /\
    candidateCell (hoverAt px py gx gy (inject_Z 120) (inject_Z (- 250))) d = (4, 1).
Proof.
  intros px py gx gy.
  destruct (drag_follows_pointer_by_cells initialState
              (sampleScore 1000 "cat" 3 4) 350 420 20 10 1 1)
    as (d & Hd & Hgen & Hstill);
    try (unfold screenPixel; simpl; lia).
  - unfold inGrid, GRID_COLS, GRID_ROWS; simpl; lia.
  - exists d. split; [exact Hd|]. split; [exact Hstill|].
    subst px py gx gy.
    rewrite (Hgen 120 (- 250)) by (unfold screenPixel; simpl; lia).
    vm_compute. reflexivity.
Defined.

Lemma existsb_blocked cx cy (d : DraggingWidget) ws :
  existsb (fun existing =>
             negb (str_eqb (id existing) (id (dragged d)))
             && overlaps cx cy (width (dragged d)) (height (dragged d)) existing)%bool
          ws = true
  <-> exists E, In E ws /\ id E <> id (dragged d) /\
                overlapping cx cy (width (dragged d)) (height (dragged d)) E.
Proof.
  rewrite existsb_exists. unfold overlapping.
  split; intros (E & Hin & H); exists E; split; auto.
  - apply andb_true_iff in H. destruct H as (H1 & H2).
    apply negb_true_iff, str_eqb_neq in H1. apply overlaps_true_iff in H2. auto.
  - destruct H as (H1 & H2). apply andb_true_iff. split.
    + apply negb_true_iff, str_eqb_neq. exact H1.
    + apply overlaps_true_iff. exact H2.
Qed.

(** X7: a drag-over of a widget of the store leaves the state as it is
    when the candidate rectangle overlaps a widget with another
    identifier; otherwise it puts the dragged widget at the candidate
    cell, all its other fields and every widget with another identifier
    unchanged.  The widget's own rectangle never blocks it. *)
Theorem live_move_commits_only_into_free_cells
    (s : State) (d : DraggingWidget) (e : PointerEvent) (i : nat) (w : Widget) :
  draggingWidget s = Some d -> isNew d = false ->
  nth_error (widgets s) i = Some w -> id w = id (dragged d) ->
  let cx := fst (candidateCell e d) in
  let cy := snd (candidateCell e d) in
  let blocked :=
    exists E, In E (widgets s) /\ id E <> id w /\
              overlapping cx cy (width (dragged d)) (height (dragged d)) E in
  (blocked -> handleDragOver s e = s) /\
  (~ blocked ->
     nth_error (widgets (handleDragOver s e)) i = Some (withPosition w cx cy) /\
     (forall j v, nth_error (widgets s) j = Some v -> id v <> id w ->
                  nth_error (widgets (handleDragOver s e)) j = Some v) /\
     draggingWidget (handleDragOver s e) = Some d).
Proof.
  intros Hd Hnew Hw Hid cx cy blocked. subst blocked cx cy.
  unfold handleDragOver. rewrite Hd, Hnew, Hid.
  destruct (candidateCell e d) as (cx, cy). cbn [fst snd].
  destruct (existsb _ (widgets s)) eqn:Hex; cbn [negb andb].
  - split; [reflexivity|]. intros Hfree. exfalso. apply Hfree.
    apply existsb_blocked. exact Hex.
  - split.
    + intros Hb. apply existsb_blocked in Hb. congruence.
    + intros _. cbn [widgets setWidgets draggingWidget]. split; [|split].
      * rewrite (updateById_nth _ _ _ _ _ Hw), Hid, str_eqb_refl. reflexivity.
      * intros j v Hv Hne. rewrite (updateById_nth _ _ _ _ _ Hv).
        apply str_eqb_neq in Hne. rewrite Hne. reflexivity.
      * exact Hd.
Qed.

Lemma live_move_commits_only_into_free_cells_witness :
  let a := sampleScore 1000 "cat" 0 0 in
  let s := {| widgets := [a; sampleScore 2000 "dog" 2 0];
              draggingWidget := Some {| dragged := a; isNew := false;
                                        offsetX := 5; offsetY := 5 |} |} in
  handleDragOver s (pointerAt 150 10) = s /\
  nth_error (widgets (handleDragOver s (pointerAt 110 120))) 0
  = Some (withPosition a 1 1).
Proof.
  intros a s.
  destruct (live_move_commits_only_into_free_cells s _ (pointerAt 150 10) 0 a
              eq_refl eq_refl eq_refl eq_refl) as (Hblocked & _).
  destruct (live_move_commits_only_into_free_cells s _ (pointerAt 110 120) 0 a
              eq_refl eq_refl eq_refl eq_refl) as (_ & Hfree).
  split.
  - apply Hblocked. exists (sampleScore 2000 "dog" 2 0).
    split; [right; left; reflexivity|].
    split; [vm_compute; discriminate|]. vm_compute. repeat split; reflexivity.
  - refine (proj1 (Hfree _)). intros (E & HE & Hne & Hov).
    destruct HE as [<-|[<-|[]]].
    + apply Hne. reflexivity.
    + vm_compute in Hov. destruct Hov as (_ & _ & Hov & _). discriminate.
Defined.

Lemma withPosition_same w : withPosition w (x w) (y w) = w.
Proof. destruct w; reflexivity. Qed.

Lemma movedOnly_refl i ws : movedOnly i ws ws.
Proof.
  split; [reflexivity|]. intros j v Hv. destruct (Nat.eqb j i); [|exact Hv].
  exists (x v), (y v). rewrite withPosition_same. exact Hv.
Qed.

(** One drag-over of the widget at position [i], seen from the store at
    the start of the drag. *)
Lemma handleDragOver_movedOnly ws0 i w s d e :
  uniqueIds ws0 -> nth_error ws0 i = Some w ->
  draggingWidget s = Some d -> id (dragged d) = id w ->
  movedOnly i ws0 (widgets s) ->
  movedOnly i ws0 (widgets (handleDragOver s e)) /\
  draggingWidget (handleDragOver s e) = Some d.
Proof.
  intros Hu Hw Hd Hid (Hlen & Hm). unfold handleDragOver. rewrite Hd.
  destruct (candidateCell e d) as (cx, cy).
  destruct (_ && _)%bool; [|split; [split; assumption|exact Hd]].
  cbn [widgets setWidgets draggingWidget]. split; [|exact Hd].
  split.
  - unfold updateById. rewrite length_map. exact Hlen.
  - intros j v Hv. specialize (Hm j v Hv).
    destruct (Nat.eqb_spec j i) as [->|Hne].
    + destruct Hm as (ax & ay & Hm). exists cx, cy.
      rewrite (updateById_nth _ _ _ _ _ Hm). cbn [id withPosition].
      assert (v = w) by congruence. subst v.
      rewrite Hid, str_eqb_refl. reflexivity.
    + rewrite (updateById_nth _ _ _ _ _ Hm).
      assert (Hdiff : id v <> id w) by (eapply uniqueIds_nth; eauto).
      rewrite Hid. apply str_eqb_neq in Hdiff. rewrite Hdiff. reflexivity.
Qed.

Lemma dragOvers_movedOnly ws0 i w d overs : forall p p',
  uniqueIds ws0 -> nth_error ws0 i = Some w ->
  gesture p = Dragging ->
  draggingWidget (state p) = Some d -> id (dragged d) = id w ->
  movedOnly i ws0 (widgets (state p)) ->
  run p (map DragOver overs) = Some p' ->
  gesture p' = Dragging /\ draggingWidget (state p') = Some d /\
  movedOnly i ws0 (widgets (state p')).
Proof.
  induction overs as [|e overs IH]; simpl; intros p p' Hu Hw Hg Hd Hid Hm Hrun.
  - injection Hrun as <-. auto.
  - rewrite Hg in Hrun.
    destruct (handleDragOver_movedOnly ws0 i w (state p) d e Hu Hw Hd Hid Hm)
      as (Hm' & Hd').
    apply (IH {| state := handleDragOver (state p) e; gesture := Dragging |} p'
              Hu Hw eq_refl Hd' Hid Hm' Hrun).
Qed.

Lemma run_app evs1 : forall evs2 p p',
  run p (evs1 ++ evs2) = Some p' <->
  exists q, run p evs1 = Some q /\ run q evs2 = Some p'.
Proof.
  induction evs1 as [|ev evs1 IH]; simpl; intros evs2 p p'.
  - split; [eauto|]. intros (q & E & H). injection E as <-. exact H.
  - destruct (step p ev) as [q|]; [apply IH|].
    split; [discriminate|]. intros (q & E & _). discriminate.
Qed.

(** X8: a whole drag of the widget at position [i] of the store (start,
    any number of drag-overs, then a drop or the end of the drag
    elsewhere), from a store with unique identifiers, changes at most the
    cell of that widget: the store keeps its length, every other widget
    stays as it is, and the dragged one keeps all fields but [x] and [y]. *)
Theorem dragging_a_widget_moves_only_that_widget
    (p p' : Page) (i : nat) (e0 : PointerEvent) (overs : list PointerEvent)
    (ending : Event) :
  uniqueIds (widgets (state p)) ->
  (ending = DragEnd \/ exists e now rName rScore, ending = Drop e now rName rScore) ->
  run p (DragStartWidget i e0 :: map DragOver overs ++ [ending]) = Some p' ->
  gesture p' = Idle /\ movedOnly i (widgets (state p)) (widgets (state p')).
Proof.
  intros Hu Hend Hrun. simpl in Hrun.
  destruct (gesture p) eqn:Hg; try discriminate.
  destruct (nth_error (widgets (state p)) i) as [w|] eqn:Hw; [|discriminate].
  apply run_app in Hrun. destruct Hrun as (q & Hovers & Hlast).
  destruct (dragOvers_movedOnly (widgets (state p)) i w
              {| dragged := w; isNew := false;
                 offsetX := clientX e0 - rectLeft e0;
                 offsetY := clientY e0 - rectTop e0 |}
              overs
              {| state := handleDragStart (state p) e0 w false; gesture := Dragging |}
              q Hu Hw eq_refl eq_refl eq_refl
              (movedOnly_refl i _) Hovers) as (Hgq & Hdq & Hmq).
  simpl in Hlast. destruct Hend as [->|(e & now & rName & rScore & ->)];
    simpl in Hlast; rewrite Hgq in Hlast.
  - injection Hlast as <-. auto.
  - destruct (dropInputsOk (state q) now rName rScore); [|discriminate].
    injection Hlast as <-. split; [reflexivity|].
    unfold handleDrop. rewrite Hdq. destruct (candidateCell e _). exact Hmq.
Qed.

Lemma dragging_a_widget_moves_only_that_widget_witness :
  exists p p',
    run initialPage twoScores = Some p /\
    run p [DragStartWidget 0 (pointerAt 5 5); DragOver (pointerAt 150 10);
           DragOver (pointerAt 5 120); Drop (pointerAt 5 120) 3000 0 0] = Some p' /\
    gesture p' = Idle /\ movedOnly 0 (widgets (state p)) (widgets (state p')).
Proof.
  eexists. eexists. split; [vm_compute; reflexivity|].
  split; [vm_compute; reflexivity|].
  apply (dragging_a_widget_moves_only_that_widget _ _ 0 (pointerAt 5 5)
           [pointerAt 150 10; pointerAt 5 120] (Drop (pointerAt 5 120) 3000 0 0)).
  - unfold uniqueIds. cbn [widgets state map id].
    constructor; [|constructor; [|constructor]]; simpl; intuition discriminate.
  - right. eauto.
  - vm_compute. reflexivity.
Defined.

(** X9: a drop of a new item whose candidate rectangle collides with no
    widget, in a store of fewer than 12 widgets, appends one widget and
    ends the drag: its identifier is "widget-" and the time of the drop,
    its cell is the candidate cell, its size, type, title and formula are
    the item's; a score widget gets a name of the list that no widget of
    the store has and a score from 0 to 100, a calculator the empty name
    and the score 0. *)
Theorem free_drop_creates_one_widget
    (s : State) (d : DraggingWidget) (e : PointerEvent)
    (now : Z) (rName rScore : Q) :
  draggingWidget s = Some d -> isNew d = true ->
  ~ collides (fst (candidateCell e d)) (snd (candidateCell e d))
             (width (dragged d)) (height (dragged d)) (widgets s) ->
  isRandom rName = true -> isRandom rScore = true ->
  (length (widgets s) < 12)%nat ->
  exists w,
    handleDrop s e now rName rScore
    = {| widgets := widgets s ++ [w]; draggingWidget := None |} /\
    id w = js "widget-" ++ decimal now /\
    (x w, y w) = candidateCell e d /\
    width w = width (dragged d) /\ height w = height (dragged d) /\
    type w = type (dragged d) /\ title w = title (dragged d) /\
    formula w = formula (dragged d) /\
    match type w with
    | Score =>
        In (name w) SIMPLE_NAMES /\
        (forall v, In v (widgets s) -> name v <> name w) /\
        scoreInRange (score w)
    | Calculator => name w = [] /\ score w = Int 0
    end.
Proof.
  intros Hd Hnew Hfree HrN HrS Hlen.
  unfold handleDrop. rewrite Hd, Hnew.
  destruct (candidateCell e d) as (cx, cy). cbn [fst snd] in Hfree.
  cbn [width height].
  destruct (existsb (overlaps cx cy (width (dragged d)) (height (dragged d)))
                    (widgets s)) eqn:Hex.
  - exfalso. apply Hfree. apply existsb_overlaps_collides. exact Hex.
  - cbn [negb]. eexists. split; [reflexivity|].
    cbn [id x y width height type title formula name score].
    repeat (split; [reflexivity|]).
    destruct (type (dragged d)).
    + destruct (generateRandomName_available (widgets s) rName HrN
                  (fewer_than_12_leaves_a_name _ Hlen)) as (Hin & Hun).
      split; [exact Hin|]. split.
      * intros v Hv E. apply Hun. rewrite <- E. apply in_map. exact Hv.
      * simpl. apply generateRandomScore_range. exact HrS.
    + split; reflexivity.
Qed.

Lemma free_drop_creates_one_widget_witness :
  let s := {| widgets := [sampleScore 1000 "cat" 0 0];
              draggingWidget :=
                Some {| dragged := widgetOfItem
                          {| item_id := js "score"; item_width := 2; item_height := 1;
                             item_title := js "Score"; item_type := Score;
                             item_score := Some (Int 7); item_name := Some [];
                             item_formula := None |};
                        isNew := true; offsetX := 0; offsetY := 0 |} |} in
  exists w,
    handleDrop s (pointerAt 210 10) 2000 0 (1 # 2)
    = {| widgets := widgets s ++ [w]; draggingWidget := None |} /\
    name w = js "dog" /\ score w = Int 50 /\ (x w, y w) = (2, 0).
Proof.
  intros s.
  destruct (free_drop_creates_one_widget s _ (pointerAt 210 10) 2000 0 (1 # 2)
              eq_refl eq_refl) as (w & Hw & _).
  - intros (E & [<-|[]] & H). vm_compute in H.
    destruct H as (H & _). discriminate.
  - reflexivity.
  - reflexivity.
  - simpl. lia.
  - exists w. split; [exact Hw|].
    vm_compute in Hw. injection Hw as <-. repeat split; reflexivity.
Defined.

(** ** Resizes *)

Lemma updateById_twice k f f' ws :
  (forall w, id (f' w) = id w) -> (forall w, f (f' w) = f w) ->
  updateById k f (updateById k f' ws) = updateById k f ws.
Proof.
  intros Hid Hf. unfold updateById. rewrite map_map. apply map_ext.
  intros w. str_cases (id w) k.
  - rewrite Hid, E, str_eqb_refl. apply Hf.
  - apply str_eqb_neq in E. rewrite E. reflexivity.
Qed.

(** X10: the mouse moves of one resize do not add up: after two moves
    the store is what the second move alone would have made of it. *)
Theorem resize_moves_do_not_accumulate
    (g : ResizeGesture) (ax ay bx By : Q) (ws : list Widget) :
  handleMouseMove g bx By (handleMouseMove g ax ay ws) = handleMouseMove g bx By ws.
Proof.
  unfold handleMouseMove. apply updateById_twice; reflexivity.
Qed.



(** ** Types and sizes along a run *)

Lemma kindInv_edit p k f :
  kindInv p ->
  (forall w, id (f w) = id w /\ type (f w) = type w /\
             width (f w) = width w /\ height (f w) = height w) ->
  kindInv (withWidgets p (updateById k f (widgets (state p)))).
Proof.
  intros (Hc & Hg) Hf. split; cbn [withWidgets state gesture widgets setWidgets draggingWidget].
  - apply Forall_updateById; auto. intros w _ _ Hw.
    destruct (Hf w) as (_ & Et & Ew & Eh). unfold calculatorSize in *.
    rewrite Et, Ew, Eh. exact Hw.
  - destruct (gesture p); auto.
    intros w' Hin E. apply updateById_In in Hin.
    destruct Hin as (w & Hw & [[_ ->]|[_ ->]]).
    + destruct (Hf w) as (Ei & Et & _). rewrite Et. apply Hg; congruence.
    + apply Hg; auto.
Qed.

Lemma step_kindInv p ev p' :
  pageInv p -> kindInv p -> step p ev = Some p' -> kindInv p'.
Proof.
  intros Hinv Hk Hstep. destruct ev; simpl in Hstep.
  - destruct (gesture p); try discriminate.
    destruct (nth_error (libraryItems r) k) as [item|] eqn:Hitem; [|discriminate].
    destruct (isRandom r); [|discriminate]. injection Hstep as <-.
    split; [apply Hk|]. simpl. eexists. split; [reflexivity|].
    intros _. unfold calculatorSize; simpl.
    destruct k as [|[|k]]; simpl in Hitem; try (destruct k; discriminate);
      injection Hitem as <-; simpl; [discriminate | auto].
  - destruct (gesture p); try discriminate.
    destruct (nth_error (widgets (state p)) i); [|discriminate].
    injection Hstep as <-. split; [apply Hk|]. simpl.
    eexists. split; [reflexivity|]. discriminate.
  - destruct (gesture p) eqn:Hg; try discriminate. injection Hstep as <-.
    destruct Hk as (Hc & Hd). rewrite Hg in Hd. destruct Hd as (d & Hd & Hnew).
    unfold handleDragOver. rewrite Hd. destruct (candidateCell e d) as (cx, cy).
    destruct (_ && _)%bool.
    + split; simpl.
      * apply Forall_updateById; auto.
      * exists d. auto.
    + split; simpl; [exact Hc | exists d; auto].
  - destruct (gesture p) eqn:Hg; try discriminate.
    destruct (dropInputsOk (state p) now rName rScore); [|discriminate].
    injection Hstep as <-.
    destruct Hk as (Hc & Hd). rewrite Hg in Hd. destruct Hd as (d & Hd & Hnew).
    split; [|exact I]. cbn [state]. unfold handleDrop. rewrite Hd.
    destruct (candidateCell e d) as (cx, cy). cbn [widgets].
    destruct (isNew d); [|exact Hc].
    destruct (negb (existsb _ _)); [|exact Hc].
    apply Forall_app. split; [exact Hc|]. constructor; [|constructor].
    exact (Hnew eq_refl).
  - destruct (gesture p); try discriminate. injection Hstep as <-.
    split; [apply Hk|exact I].
  - destruct (gesture p); try discriminate.
    destruct (nth_error (widgets (state p)) i) as [w|] eqn:Hw; [|discriminate].
    destruct (type w) eqn:Ht; [|discriminate].
    unfold handleResize in Hstep. rewrite Ht in Hstep. injection Hstep as <-.
    split; [apply Hk|]. simpl. intros v Hv E.
    apply nth_error_In in Hw.
    rewrite (uniqueIds_same _ v w (proj1 Hinv) Hv Hw E). exact Ht.
  - destruct (gesture p) eqn:Hg; try discriminate. injection Hstep as <-.
    destruct Hk as (Hc & Hr). rewrite Hg in Hr.
    split; cbn [withWidgets state gesture widgets setWidgets].
    + unfold handleMouseMove. apply Forall_updateById; auto.
      intros w Hw E _ Hcalc. simpl in Hcalc. rewrite (Hr w Hw E) in Hcalc.
      discriminate.
    + rewrite Hg. intros w' Hin E. unfold handleMouseMove in Hin.
      apply updateById_In in Hin.
      destruct Hin as (w & Hw & [[Ei ->]|[_ ->]]); simpl in *; auto.
  - destruct (gesture p); try discriminate. injection Hstep as <-.
    split; [apply Hk|exact I].
  - apply onWidget_inv in Hstep. destruct Hstep as (w & _ & _ & ->).
    destruct Hk as (Hc & Hg). split; cbn [withWidgets state gesture widgets setWidgets draggingWidget].
    + apply Forall_forall. intros v Hv. apply filter_In in Hv.
      exact (proj1 (Forall_forall _ _) Hc v (proj1 Hv)).
    + destruct (gesture p); auto.
      intros v Hv. apply filter_In in Hv. apply Hg. tauto.
  - apply onWidget_inv in Hstep. destruct Hstep as (w & _ & _ & ->).
    destruct (onNameChange_cases (widgets (state p)) w value) as [E|E]; rewrite E.
    + destruct Hk as (Hc & Hg). split; simpl; auto.
    + apply kindInv_edit; auto.
  - apply onWidget_inv in Hstep. destruct Hstep as (w & _ & _ & ->).
    apply kindInv_edit; auto.
  - apply onWidget_inv in Hstep. destruct Hstep as (w & _ & _ & ->).
    apply kindInv_edit; auto.
  - apply onWidget_inv in Hstep. destruct Hstep as (w & _ & _ & ->).
    apply kindInv_edit; auto.
  - destruct (nth_error (widgets (state p)) j) as [v|]; [|discriminate].
    apply onWidget_inv in Hstep. destruct Hstep as (w & _ & _ & ->).
    apply kindInv_edit; auto.
Qed.

Lemma run_kindInv evs : forall p p',
  pageInv p -> kindInv p -> run p evs = Some p' -> kindInv p'.
Proof.
  induction evs as [|ev evs IH]; simpl; intros p p' Hinv Hk Hrun.
  - injection Hrun as <-. assumption.
  - destruct (step p ev) as [q|] eqn:Hstep; [|discriminate].
    eapply IH; [| |exact Hrun].
    + eapply step_pageInv; eauto.
    + eapply step_kindInv; eauto.
Qed.

(** X12: along every run a calculator keeps the size 4 by 2 of its
    library item (no resize reaches it), and a score widget is at least 2
    cells wide and 1 cell high. *)
Theorem calculators_keep_their_size (evs : list Event) (p : Page) (w : Widget) :
  run initialPage evs = Some p -> In w (widgets (state p)) ->
  match type w with
  | Calculator => width w = 4 /\ height w = 2
  | Score => 2 <= width w /\ 1 <= height w
  end.
Proof.
  intros Hrun Hw.
  assert (Hinv : pageInv p) by (eapply run_pageInv; eauto using initialPage_inv).
  assert (Hk : kindInv p).
  { eapply run_kindInv; [apply initialPage_inv| |exact Hrun].
    split; simpl; [constructor|exact I]. }
  destruct (type w) eqn:Ht.
  - destruct Hinv as (_ & Hg & _).
    exact (proj2 (proj1 (Forall_forall _ _) Hg w Hw)).
  - exact (proj1 (Forall_forall _ _) (proj1 Hk) w Hw Ht).
Qed.

Lemma calculators_keep_their_size_witness :
  exists p c,
    run initialPage (scoreAndCalculator ++ [ResizeDown 0 190 90; MouseMove 700 700])
    = Some p /\
    nth_error (widgets (state p)) 1 = Some c /\
    type c = Calculator /\ width c = 4 /\ height c = 2.
Proof.
  eexists. eexists. split; [vm_compute; reflexivity|].
  split; [reflexivity|]. split; [reflexivity|].
  exact (calculators_keep_their_size
           (scoreAndCalculator ++ [ResizeDown 0 190 90; MouseMove 700 700]) _ _
           ltac:(vm_compute; reflexivity) ltac:(right; left; reflexivity)).
Defined.

(** X13: along every run the identifiers of the widgets of the store are
    pairwise distinct ([Date.now()] being taken to differ from the time of
    every earlier drop still in the store). *)
Theorem identifiers_stay_unique (evs : list Event) (p : Page) (i j : nat) (a b : Widget) :
  run initialPage evs = Some p ->
  nth_error (widgets (state p)) i = Some a ->
  nth_error (widgets (state p)) j = Some b ->
  i <> j -> id a <> id b.
Proof.
  intros Hrun Ha Hb Hij.
  assert (Hinv : pageInv p) by (eapply run_pageInv; eauto using initialPage_inv).
  eapply uniqueIds_nth; eauto. apply Hinv.
Qed.

Lemma identifiers_stay_unique_witness :
  exists p a b,
    run initialPage dragFirstDown = Some p /\
    nth_error (widgets (state p)) 0 = Some a /\
    nth_error (widgets (state p)) 1 = Some b /\ id a <> id b.
Proof.
  eexists. eexists. eexists. split; [vm_compute; reflexivity|].
  split; [reflexivity|]. split; [reflexivity|].
  apply (identifiers_stay_unique dragFirstDown _ 0 1 _ _
           ltac:(vm_compute; reflexivity) eq_refl eq_refl).
  discriminate.
Defined.

(** ** Edits of formula, score and name *)

(** X14: inserting a variable splices it into the textarea's text at the
    cursor: the new formula of the widget is the text before the cursor,
    the variable, and the text from the cursor on, so cutting the
    variable out again gives the text back; the other widgets are left as
    they are, and nothing changes when the textarea is not found. *)
Theorem insertIntoFormula_splices_at_cursor
    (ws : list Widget) (i : nat) (w : Widget)
    (variable value : jsstring) (cursorPos : nat) :
  nth_error ws i = Some w -> (cursorPos <= length value)%nat ->
  exists f,
    nth_error (insertIntoFormula ws (id w) variable (Some (value, cursorPos))) i
    = Some (withFormula w f) /\
    length f = (length value + length variable)%nat /\
    firstn cursorPos f = firstn cursorPos value /\
    firstn (length variable) (skipn cursorPos f) = variable /\
    firstn cursorPos f ++ skipn (cursorPos + length variable) f = value /\
    (forall j v, nth_error ws j = Some v -> id v <> id w ->
       nth_error (insertIntoFormula ws (id w) variable (Some (value, cursorPos))) j
       = Some v) /\
    insertIntoFormula ws (id w) variable None = ws.
Proof.
  intros Hw Hpos.
  exists (firstn cursorPos value ++ variable ++ skipn cursorPos value).
  assert (Hlen : length (firstn cursorPos value) = cursorPos)
    by (apply firstn_length_le; exact Hpos).
  unfold insertIntoFormula. split; [|split; [|split; [|split; [|split; [|split]]]]].
  - rewrite (updateById_nth _ _ _ _ _ Hw), str_eqb_refl. reflexivity.
  - rewrite !length_app, Hlen, length_skipn. lia.
  - rewrite firstn_app, Hlen, Nat.sub_diag, firstn_O, app_nil_r.
    rewrite firstn_firstn, Nat.min_id. reflexivity.
  - rewrite skipn_app, Hlen, Nat.sub_diag, skipn_O.
    rewrite (skipn_all2 (firstn cursorPos value)) by lia. simpl.
    rewrite firstn_app, Nat.sub_diag, firstn_O, app_nil_r. apply firstn_all.
  - rewrite firstn_app, Hlen, Nat.sub_diag, firstn_O, app_nil_r.
    rewrite firstn_firstn, Nat.min_id.
    rewrite skipn_app, Hlen.
    rewrite (skipn_all2 (firstn cursorPos value)) by lia. simpl.
    replace (cursorPos + length variable - cursorPos)%nat with (length variable) by lia.
    rewrite skipn_app, Nat.sub_diag, skipn_O, skipn_all. simpl.
    apply firstn_skipn.
  - intros j v Hv Hne. rewrite (updateById_nth _ _ _ _ _ Hv).
    apply str_eqb_neq in Hne. rewrite Hne. reflexivity.
  - reflexivity.
Qed.

Lemma insertIntoFormula_splices_at_cursor_witness :
  let c := withFormula (sampleCalculator 2000 0 1) (js "cat + ") in
  nth_error (insertIntoFormula [sampleScore 1000 "cat" 0 0; c] (id c) (js "dog")
                               (Some (js "cat +  * 2", 6%nat))) 1
  = Some (withFormula c (js "cat + dog * 2")).
Proof.
  intros c.
  destruct (insertIntoFormula_splices_at_cursor
              [sampleScore 1000 "cat" 0 0; c] 1 c (js "dog") (js "cat +  * 2") 6
              eq_refl ltac:(simpl; lia)) as (f & Hf & _).
  rewrite Hf. vm_compute in Hf. injection Hf as <-. reflexivity.
Defined.

Lemma digit_isDigit c : isDigitCode c -> isDigit c = true.
Proof.
  unfold isDigitCode, isDigit, inRange. intros H.
  rewrite andb_true_iff, !N.leb_le. exact H.
Qed.

Lemma takeWhile_all_digits ds :
  Forall isDigitCode ds -> takeWhile isDigit ds = (ds, []).
Proof.
  induction 1 as [|c ds Hc _ IH]; simpl; [reflexivity|].
  rewrite (digit_isDigit c Hc), IH. reflexivity.
Qed.

Lemma parseInt_unsigned c ds :
  isDigitCode c ->
  parseInt (c :: ds)
  = match fst (takeWhile isDigit (c :: ds)) with
    | [] => NaN
    | d :: ds' => Int (digitsValue (d :: ds'))
    end.
Proof.
  unfold isDigitCode. intros H.
  assert (E : (c = 48 \/ c = 49 \/ c = 50 \/ c = 51 \/ c = 52 \/ c = 53 \/
               c = 54 \/ c = 55 \/ c = 56 \/ c = 57)%N) by lia.
  repeat (destruct E as [->|E]; [reflexivity|]). subst c. reflexivity.
Qed.

(** [parseInt] reads back the numeral of a non-negative integer, with or
    without a minus sign in front. *)
Lemma parseInt_decimal n :
  0 <= n ->
  parseInt (decimal n) = Int n /\ parseInt (js "-" ++ decimal n) = Int (- n).
Proof.
  intros Hn. destruct (decimal_spec n Hn) as (Hd & Hne & Hv).
  destruct (decimal n) as [|c ds] eqn:E; [congruence|].
  assert (Hc : isDigitCode c) by (inversion Hd; assumption).
  assert (Htw : takeWhile isDigit (c :: ds) = (c :: ds, []))
    by (apply takeWhile_all_digits; exact Hd).
  split.
  - rewrite (parseInt_unsigned c ds Hc), Htw. cbn [fst]. rewrite Hv. reflexivity.
  - unfold parseInt. change (js "-" ++ c :: ds) with (45%N :: c :: ds).
    cbn [dropWhile]. change (isRegExpSpace 45) with false. cbv iota.
    rewrite Htw. cbn [fst]. rewrite Hv. reflexivity.
Qed.

Lemma withScore_same w : withScore w (score w) = w.
Proof. destruct w; reflexivity. Qed.

(** X15: typing the numeral of an integer n >= 0 into the score field
    stores n when n <= 100 and 100 otherwise; typing it with a minus sign
    stores 0; and typing the score that the widget already has leaves the
    store as it is. *)
Theorem score_edit_stores_the_clamped_integer
    (ws : list Widget) (i : nat) (w : Widget) (n : Z) :
  nth_error ws i = Some w -> 0 <= n ->
  nth_error (onScoreChange ws w (decimal n)) i
  = Some (withScore w (Int (Z.min 100 n))) /\
  nth_error (onScoreChange ws w (js "-" ++ decimal n)) i
  = Some (withScore w (Int 0)) /\
  (uniqueIds ws -> score w = Int n -> n <= 100 ->
   onScoreChange ws w (decimal n) = ws).
Proof.
  intros Hw Hn. destruct (parseInt_decimal n Hn) as (Hp & Hm).
  unfold onScoreChange. rewrite Hp, Hm. split; [|split].
  - rewrite (updateById_nth _ _ _ _ _ Hw), str_eqb_refl. simpl.
    do 3 f_equal. lia.
  - rewrite (updateById_nth _ _ _ _ _ Hw), str_eqb_refl. simpl.
    do 3 f_equal. lia.
  - intros Hu Hs Hle. unfold updateById.
    rewrite <- (map_id ws) at 2. apply map_ext_in. intros v Hv.
    str_cases (id v) (id w); [|reflexivity].
    rewrite (uniqueIds_same _ v w Hu Hv (nth_error_In _ _ Hw) E).
    simpl. replace (Z.max 0 (Z.min 100 n)) with n by lia.
    rewrite <- Hs. apply withScore_same.
Qed.

Lemma score_edit_stores_the_clamped_integer_witness :
  let a := sampleScore 1000 "cat" 0 0 in
  nth_error (onScoreChange [a] a (js "250")) 0 = Some (withScore a (Int 100)) /\
  nth_error (onScoreChange [a] a (js "-250")) 0 = Some (withScore a (Int 0)).
Proof.
  intros a.
  destruct (score_edit_stores_the_clamped_integer [a] 0 a 250 eq_refl
              ltac:(lia)) as (H1 & H2 & _).
  split; [exact H1 | exact H2].
Defined.

(** X16: the Random button gives the widget a score from 0 to 100 and
    changes nothing else: its name and other fields stay, and so do the
    widgets with another identifier. *)
Theorem random_click_changes_only_the_score
    (ws : list Widget) (i : nat) (w : Widget) (r : Q) :
  nth_error ws i = Some w -> isRandom r = true ->
  exists k, 0 <= k <= 100 /\
    nth_error (onRandomClick ws w r) i = Some (withScore w (Int k)) /\
    name (withScore w (Int k)) = name w /\
    forall j v, nth_error ws j = Some v -> id v <> id w ->
                nth_error (onRandomClick ws w r) j = Some v.
Proof.
  intros Hw Hr. exists (generateRandomScore r).
  split; [apply generateRandomScore_range; exact Hr|].
  unfold onRandomClick. split; [|split].
  - rewrite (updateById_nth _ _ _ _ _ Hw), str_eqb_refl. reflexivity.
  - reflexivity.
  - intros j v Hv Hne. rewrite (updateById_nth _ _ _ _ _ Hv).
    apply str_eqb_neq in Hne. rewrite Hne. reflexivity.
Qed.

Lemma random_click_changes_only_the_score_witness :
  let a := sampleScore 1000 "cat" 0 0 in
  exists k, 0 <= k <= 100 /\
    nth_error (onRandomClick [a; sampleScore 2000 "dog" 2 0] a (9 # 10)) 0
    = Some (withScore a (Int k)).
Proof.
  intros a.
  destruct (random_click_changes_only_the_score
              [a; sampleScore 2000 "dog" 2 0] 0 a (9 # 10) eq_refl eq_refl)
    as (k & Hk & Hn & _).
  exists k. split; [exact Hk | exact Hn].
Defined.

(** ** Names *)

Lemma lowerUnit_letter c : isLower c = true -> lowerUnit c = [c].
Proof.
  unfold isLower, lowerUnit, isUpper, inRange.
  rewrite andb_true_iff, !N.leb_le. intros H.
  assert (E1 : (N.leb 65 c && N.leb c 90)%bool = false).
  { apply andb_false_iff. right. apply N.leb_gt. lia. }
  rewrite E1.
  destruct (N.eqb_spec c 304); [lia|]. destruct (N.eqb_spec c 8490); [lia|].
  reflexivity.
Qed.

Lemma sanitizeName_letters_id s : forallb isLower s = true -> sanitizeName s = s.
Proof.
  unfold sanitizeName, toLowerCase.
  induction s as [|c s IH]; simpl; [reflexivity|].
  intros H. apply andb_true_iff in H. destruct H as (Hc & Hs).
  rewrite (lowerUnit_letter c Hc). simpl. rewrite Hc. f_equal. apply IH. exact Hs.
Qed.

(** X17: a name that is already in lower-case letters a-z is offered as
    it is, and the text that an edit offers is again such a name:
    sanitizing twice is sanitizing once.  Capital letters A-Z are offered
    in lower case. *)
Theorem sanitizeName_is_idempotent (value : jsstring) :
  sanitizeName (sanitizeName value) = sanitizeName value /\
  (forallb isLower value = true -> sanitizeName value = value) /\
  (forallb isUpper value = true ->
   sanitizeName value = map (fun c => (c + 32)%N) value).
Proof.
  split; [|split].
  - apply sanitizeName_letters_id. unfold sanitizeName.
    apply forallb_forall. intros c Hc. apply filter_In in Hc. tauto.
  - apply sanitizeName_letters_id.
  - unfold sanitizeName, toLowerCase.
    induction value as [|c s IH]; simpl; [reflexivity|].
    intros H. apply andb_true_iff in H. destruct H as (Hc & Hs).
    unfold lowerUnit at 1. rewrite Hc. simpl.
    assert (Hl : isLower (c + 32) = true).
    { unfold isUpper, isLower, inRange in *.
      rewrite andb_true_iff, !N.leb_le in *. lia. }
    rewrite Hl. f_equal. apply IH. exact Hs.
Qed.

Lemma scoreNamesDistinct_sub ws ws' :
  scoreNamesDistinct ws ->
  (forall w', In w' ws' ->
     exists w, In w ws /\ id w' = id w /\ type w' = type w /\ name w' = name w) ->
  scoreNamesDistinct ws'.
Proof.
  intros Hd Hsub a' b' Ha Hb Hid Hta Htb Hne.
  destruct (Hsub _ Ha) as (a & Ha0 & Ia & Ta & Na).
  destruct (Hsub _ Hb) as (b & Hb0 & Ib & Tb & Nb).
  rewrite Na, Nb. apply Hd; auto; congruence.
Qed.

Lemma updateById_sub k f ws :
  (forall w, id (f w) = id w /\ type (f w) = type w /\ name (f w) = name w) ->
  forall w', In w' (updateById k f ws) ->
    exists w, In w ws /\ id w' = id w /\ type w' = type w /\ name w' = name w.
Proof.
  intros Hf w' Hin. apply updateById_In in Hin.
  destruct Hin as (w & Hw & [[_ ->]|[_ ->]]); exists w; split; auto;
    try apply Hf.
Qed.

Lemma onNameChange_scoreNamesDistinct ws w value :
  scoreNamesDistinct ws -> scoreNamesDistinct (onNameChange ws w value).
Proof.
  intros Hd. unfold onNameChange.
  destruct (forallb _ ws) eqn:Hok; [|exact Hd].
  assert (Hfree : forall v, In v ws -> id v <> id w -> name v <> sanitizeName value).
  { intros v Hv Hid Hname.
    assert (Hex : exists u, In u ws /\ id u <> id w /\ name u = sanitizeName value)
      by eauto.
    apply nameTaken_iff in Hex. congruence. }
  intros a' b' Ha Hb Hid Hta Htb Hne.
  apply updateById_In in Ha, Hb.
  destruct Ha as (a & Ha & [[Ea ->]|[Ea ->]]);
    destruct Hb as (b & Hb & [[Eb ->]|[Eb ->]]); simpl in *.
  - congruence.
  - intros E. apply (Hfree b Hb Eb). congruence.
  - apply Hfree; assumption.
  - apply Hd; auto.
Qed.

(** X18: a name edit never makes two score widgets share a name: if no
    two score widgets with different identifiers shared a non-empty name
    before the edit, none do after it, whether the edit is accepted or
    refused. *)
Theorem name_edit_keeps_names_distinct
    (ws : list Widget) (w : Widget) (value : jsstring) :
  scoreNamesDistinct ws -> scoreNamesDistinct (onNameChange ws w value).
Proof. apply onNameChange_scoreNamesDistinct. Qed.

Lemma name_edit_keeps_names_distinct_witness :
  let ws := [sampleScore 1000 "cat" 0 0; sampleScore 2000 "dog" 2 0] in
  scoreNamesDistinct (onNameChange ws (sampleScore 1000 "cat" 0 0) (js "DOG")) /\
  scoreNamesDistinct (onNameChange ws (sampleScore 1000 "cat" 0 0) (js "sun")).
Proof.
  intros ws.
  assert (Hd : scoreNamesDistinct ws).
  { intros a b [<-|[<-|[]]] [<-|[<-|[]]] Hid _ _ _; try (exfalso; apply Hid; reflexivity);
      vm_compute; discriminate. }
  split; apply name_edit_keeps_names_distinct; exact Hd.
Defined.

Lemma step_scoreNamesDistinct p ev p' :
  (length (widgets (state p)) < 12)%nat ->
  scoreNamesDistinct (widgets (state p)) ->
  step p ev = Some p' -> scoreNamesDistinct (widgets (state p')).
Proof.
  intros Hlen Hd Hstep. destruct ev; simpl in Hstep.
  - destruct (gesture p); try discriminate.
    destruct (nth_error (libraryItems r) k); [|discriminate].
    destruct (isRandom r); [|discriminate]. injection Hstep as <-. exact Hd.
  - destruct (gesture p); try discriminate.
    destruct (nth_error (widgets (state p)) i); [|discriminate].
    injection Hstep as <-. exact Hd.
  - destruct (gesture p); try discriminate. injection Hstep as <-.
    unfold handleDragOver. destruct (draggingWidget (state p)) as [d|]; [|exact Hd].
    destruct (candidateCell e d) as (cx, cy).
    destruct (_ && _)%bool; [|exact Hd].
    eapply scoreNamesDistinct_sub; [exact Hd|].
    apply updateById_sub. intros w. repeat split.
  - destruct (gesture p); try discriminate.
    destruct (dropInputsOk (state p) now rName rScore) eqn:Hin; [|discriminate].
    injection Hstep as <-. unfold handleDrop, dropInputsOk in *.
    destruct (draggingWidget (state p)) as [d|]; [|exact Hd].
    destruct (candidateCell e d) as (cx, cy). cbn [widgets].
    destruct (isNew d); [|exact Hd].
    destruct (negb (existsb _ _)); [|exact Hd].
    apply andb_true_iff in Hin. destruct Hin as (Hin & _).
    apply andb_true_iff in Hin. destruct Hin as (HrN & _).
    destruct (generateRandomName_available (widgets (state p)) rName HrN
                (fewer_than_12_leaves_a_name _ Hlen)) as (_ & Hun).
    intros a b Ha Hb Hid Hta Htb Hne.
    apply in_app_or in Ha, Hb.
    destruct Ha as [Ha|[<-|[]]]; destruct Hb as [Hb|[<-|[]]]; simpl in *.
    + apply Hd; auto.
    + destruct (type (dragged d)); [|discriminate].
      intros E. apply Hun. rewrite <- E. apply in_map. exact Ha.
    + destruct (type (dragged d)); [|discriminate].
      intros E. apply Hun. rewrite E. apply in_map. exact Hb.
    + congruence.
  - destruct (gesture p); try discriminate. injection Hstep as <-. exact Hd.
  - destruct (gesture p); try discriminate.
    destruct (nth_error (widgets (state p)) i) as [w|]; [|discriminate].
    destruct (type w); [|discriminate].
    destruct (handleResize clientX0 clientY0 w); [|discriminate].
    injection Hstep as <-. exact Hd.
  - destruct (gesture p); try discriminate. injection Hstep as <-.
    eapply scoreNamesDistinct_sub; [exact Hd|].
    apply updateById_sub. intros w. repeat split.
  - destruct (gesture p); try discriminate. injection Hstep as <-. exact Hd.
  - apply onWidget_inv in Hstep. destruct Hstep as (w & _ & _ & ->).
    eapply scoreNamesDistinct_sub; [exact Hd|].
    intros v Hv. apply filter_In in Hv. exists v. tauto.
  - apply onWidget_inv in Hstep. destruct Hstep as (w & _ & _ & ->).
    apply onNameChange_scoreNamesDistinct. exact Hd.
  - apply onWidget_inv in Hstep. destruct Hstep as (w & _ & _ & ->).
    eapply scoreNamesDistinct_sub; [exact Hd|].
    apply updateById_sub. intros v. repeat split.
  - apply onWidget_inv in Hstep. destruct Hstep as (w & _ & _ & ->).
    eapply scoreNamesDistinct_sub; [exact Hd|].
    apply updateById_sub. intros v. repeat split.
  - apply onWidget_inv in Hstep. destruct Hstep as (w & _ & _ & ->).
    eapply scoreNamesDistinct_sub; [exact Hd|].
    apply updateById_sub. intros v. repeat split.
  - destruct (nth_error (widgets (state p)) j) as [v|]; [|discriminate].
    apply onWidget_inv in Hstep. destruct Hstep as (w & _ & _ & ->).
    eapply scoreNamesDistinct_sub; [exact Hd|].
    apply updateById_sub. intros u. repeat split.
Qed.

Lemma runBelow12_scoreNamesDistinct evs : forall p p',
  scoreNamesDistinct (widgets (state p)) ->
  runBelow12 p evs = Some p' -> scoreNamesDistinct (widgets (state p')).
Proof.
  induction evs as [|ev evs IH]; simpl; intros p p' Hd Hrun.
  - injection Hrun as <-. assumption.
  - destruct (Nat.ltb_spec (length (widgets (state p))) 12) as [Hlen|_];
      [|discriminate].
    destruct (step p ev) as [q|] eqn:Hstep; [|discriminate].
    eapply IH; [|exact Hrun]. eapply step_scoreNamesDistinct; eauto.
Qed.

Lemma runBelow12_run evs : forall p p',
  runBelow12 p evs = Some p' -> run p evs = Some p'.
Proof.
  induction evs as [|ev evs IH]; simpl; intros p p' H; [exact H|].
  destruct (Nat.ltb _ 12); [|discriminate].
  destruct (step p ev); [apply IH; exact H|discriminate].
Qed.

(** X19: along a run during which the store holds fewer than 12 widgets
    before every action, no two score widgets with different identifiers
    share a non-empty name: every drop draws a name that no widget has
    and every edit to a name in use is refused. *)
Theorem names_stay_distinct_below_12_widgets
    (evs : list Event) (p : Page) (a b : Widget) :
  runBelow12 initialPage evs = Some p ->
  In a (widgets (state p)) -> In b (widgets (state p)) -> id a <> id b ->
  type a = Score -> type b = Score -> name a <> [] ->
  run initialPage evs = Some p /\ name a <> name b.
Proof.
  intros Hrun Ha Hb Hid Hta Htb Hne. split; [apply runBelow12_run; exact Hrun|].
  assert (Hd : scoreNamesDistinct (widgets (state p))).
  { eapply runBelow12_scoreNamesDistinct; [|exact Hrun].
    intros u v Hu. destruct Hu. }
  apply Hd; assumption.
Qed.

Lemma names_stay_distinct_below_12_widgets_witness :
  exists p a b,
    runBelow12 initialPage (twoScores ++ [NameChange 0 (js "Dog"); NameChange 1 (js "cat!")])
    = Some p /\
    widgets (state p) = [a; b] /\ name a = js "cat" /\ name b = js "dog" /\
    name a <> name b.
Proof.
  eexists. eexists. eexists. split; [vm_compute; reflexivity|].
  split; [reflexivity|].
  assert (H := names_stay_distinct_below_12_widgets
                 (twoScores ++ [NameChange 0 (js "Dog"); NameChange 1 (js "cat!")])
                 _ (sampleScore 1000 "cat" 0 0) (sampleScore 2000 "dog" 2 0)
                 ltac:(vm_compute; reflexivity)
                 ltac:(left; reflexivity) ltac:(right; left; reflexivity)
                 ltac:(vm_compute; discriminate) eq_refl eq_refl
                 ltac:(vm_compute; discriminate)).
  split; [reflexivity|]. split; [reflexivity|]. exact (proj2 H).
Defined.

(** ** Deletions and the order of the store *)

Lemma handleDelete_twice ws a b :
  handleDelete (handleDelete ws a) b
  = filter (fun w => negb (str_eqb (id w) a) && negb (str_eqb (id w) b))%bool ws.
Proof.
  unfold handleDelete. induction ws as [|w ws IH]; simpl; [reflexivity|].
  destruct (str_eqb (id w) a); simpl; [exact IH|].
  destruct (str_eqb (id w) b); simpl; [exact IH|]. f_equal. exact IH.
Qed.

(** X20: deleting the same identifier twice is deleting it once, two
    deletions give the same store in either order, and after a deletion
    no action on the deleted identifier finds a widget: a further
    drag-over of it, a resize step of it or an edit of it by identifier
    leaves the store as it is. *)
Theorem deletions_compose (ws : list Widget) (a b : jsstring) :
  handleDelete (handleDelete ws a) a = handleDelete ws a /\
  handleDelete (handleDelete ws a) b = handleDelete (handleDelete ws b) a /\
  forall f, updateById a f (handleDelete ws a) = handleDelete ws a.
Proof.
  split; [|split].
  - rewrite handleDelete_twice. unfold handleDelete. apply filter_ext.
    intros w. destruct (str_eqb (id w) a); reflexivity.
  - rewrite !handleDelete_twice. apply filter_ext. intros w. apply andb_comm.
  - intros f. apply updateById_absent. intros w Hw.
    apply filter_In in Hw. destruct Hw as (_ & Hw).
    apply negb_true_iff, str_eqb_neq in Hw. exact Hw.
Qed.

Lemma updateById_kinds k f ws :
  (forall w, id (f w) = id w /\ type (f w) = type w) ->
  map id (updateById k f ws) = map id ws /\
  map type (updateById k f ws) = map type ws.
Proof.
  intros Hf. unfold updateById. rewrite !map_map.
  split; apply map_ext; intros w; destruct (str_eqb (id w) k); auto; apply Hf.
Qed.

Lemma step_keeps_order p ev p' :
  isDropOrDelete ev = false -> step p ev = Some p' ->
  map id (widgets (state p')) = map id (widgets (state p)) /\
  map type (widgets (state p')) = map type (widgets (state p)).
Proof.
  intros Hev Hstep. destruct ev; simpl in Hstep; try discriminate Hev.
  - destruct (gesture p); try discriminate.
    destruct (nth_error (libraryItems r) k); [|discriminate].
    destruct (isRandom r); [|discriminate]. injection Hstep as <-. auto.
  - destruct (gesture p); try discriminate.
    destruct (nth_error (widgets (state p)) i); [|discriminate].
    injection Hstep as <-. auto.
  - destruct (gesture p); try discriminate. injection Hstep as <-.
    unfold handleDragOver. destruct (draggingWidget (state p)) as [d|]; [|auto].
    destruct (candidateCell e d) as (cx, cy).
    destruct (_ && _)%bool; [|auto]. apply updateById_kinds. auto.
  - destruct (gesture p); try discriminate. injection Hstep as <-. auto.
  - destruct (gesture p); try discriminate.
    destruct (nth_error (widgets (state p)) i) as [w|]; [|discriminate].
    destruct (type w); [|discriminate].
    destruct (handleResize clientX0 clientY0 w); [|discriminate].
    injection Hstep as <-. auto.
  - destruct (gesture p); try discriminate. injection Hstep as <-.
    apply updateById_kinds. auto.
  - destruct (gesture p); try discriminate. injection Hstep as <-. auto.
  - apply onWidget_inv in Hstep. destruct Hstep as (w & _ & _ & ->).
    destruct (onNameChange_cases (widgets (state p)) w value) as [E|E];
      simpl; rewrite E; [auto|]. apply updateById_kinds. auto.
  - apply onWidget_inv in Hstep. destruct Hstep as (w & _ & _ & ->).
    apply updateById_kinds. auto.
  - apply onWidget_inv in Hstep. destruct Hstep as (w & _ & _ & ->).
    apply updateById_kinds. auto.
  - apply onWidget_inv in Hstep. destruct Hstep as (w & _ & _ & ->).
    apply updateById_kinds. auto.
  - destruct (nth_error (widgets (state p)) j) as [v|]; [|discriminate].
    apply onWidget_inv in Hstep. destruct Hstep as (w & _ & _ & ->).
    apply updateById_kinds. auto.
Qed.

(** X21: only drops and deletions change which widgets the store holds:
    along a run without them (drags, resizes and edits of any field) the
    identifiers and the types of the widgets stay the same, position by
    position. *)
Theorem moves_resizes_and_edits_keep_the_widgets
    (evs : list Event) (p p' : Page) :
  forallb (fun ev => negb (isDropOrDelete ev)) evs = true ->
  run p evs = Some p' ->
  map id (widgets (state p')) = map id (widgets (state p)) /\
  map type (widgets (state p')) = map type (widgets (state p)).
Proof.
  revert p. induction evs as [|ev evs IH]; simpl; intros p Hall Hrun.
  - injection Hrun as <-. auto.
  - destruct (step p ev) as [q|] eqn:Hstep; [|discriminate].
    apply andb_true_iff in Hall. destruct Hall as (Hev & Hall).
    apply negb_true_iff in Hev.
    destruct (step_keeps_order p ev q Hev Hstep) as (E1 & E2).
    destruct (IH q Hall Hrun) as (F1 & F2). split; congruence.
Qed.

Lemma moves_resizes_and_edits_keep_the_widgets_witness :
  exists p p',
    run initialPage scoreAndCalculator = Some p /\
    run p [DragStartWidget 0 (pointerAt 5 5); DragOver (pointerAt 305 5); DragEnd;
           ResizeDown 0 490 90; MouseMove 800 300; MouseUp;
           NameChange 0 (js "sun"); FormulaChange 1 (js "sun * 2")] = Some p' /\
    map id (widgets (state p')) = map id (widgets (state p)) /\
    map type (widgets (state p')) = [Score; Calculator].
Proof.
  destruct (run initialPage scoreAndCalculator) as [p|] eqn:Hp;
    [|vm_compute in Hp; discriminate].
  destruct (run p [DragStartWidget 0 (pointerAt 5 5); DragOver (pointerAt 305 5);
                   DragEnd; ResizeDown 0 490 90; MouseMove 800 300; MouseUp;
                   NameChange 0 (js "sun"); FormulaChange 1 (js "sun * 2")])
    as [p'|] eqn:Hp';
    [|vm_compute in Hp; injection Hp as <-; vm_compute in Hp'; discriminate].
  exists p, p'. split; [reflexivity|]. split; [exact Hp'|].
  destruct (moves_resizes_and_edits_keep_the_widgets
              [DragStartWidget 0 (pointerAt 5 5); DragOver (pointerAt 305 5);
               DragEnd; ResizeDown 0 490 90; MouseMove 800 300; MouseUp;
               NameChange 0 (js "sun"); FormulaChange 1 (js "sun * 2")]
              p p' eq_refl Hp') as (Hid & Hty).
  split; [exact Hid|]. rewrite Hty.
  vm_compute in Hp. injection Hp as <-. reflexivity.
Defined.

(** ** The result line of a calculator *)

Lemma setEntry_new k v o :
  ~ In k (map fst o) -> setEntry k v o = o ++ [(k, v)].
Proof.
  induction o as [|(k', v') o IH]; simpl; intros Hk; [reflexivity|].
  str_cases k' k; [exfalso; apply Hk; left; exact E|].
  f_equal. apply IH. tauto.
Qed.

Lemma fold_setEntry_distinct l : forall acc,
  NoDup (map fst (acc ++ l)) ->
  fold_left (fun o kv => setEntry (fst kv) (snd kv) o) l acc = acc ++ l.
Proof.
  induction l as [|(k, v) l IH]; intros acc Hnd; simpl.
  - rewrite app_nil_r. reflexivity.
  - assert (Hk : ~ In k (map fst acc)).
    { rewrite map_app in Hnd. simpl in Hnd. apply NoDup_remove_2 in Hnd.
      intros Hin. apply Hnd. apply in_or_app. left. exact Hin. }
    rewrite (setEntry_new k v acc Hk), IH.
    + rewrite <- app_assoc. reflexivity.
    + rewrite <- app_assoc. exact Hnd.
Qed.

(** With distinct keys, [Object.fromEntries] keeps the entries as they
    come. *)
Lemma fromEntries_distinct l : NoDup (map fst l) -> fromEntries l = l.
Proof. intros H. unfold fromEntries. apply (fold_setEntry_distinct l []). exact H. Qed.

Lemma combine_fst_snd {A B} (l : list (A * B)) : combine (map fst l) (map snd l) = l.
Proof. induction l as [|(a, b) l IH]; simpl; [reflexivity|]. f_equal. exact IH. Qed.

Lemma lookupArg_In l k v :
  NoDup (map fst l) -> In (k, v) l -> lookupArg l k = Some v.
Proof.
  induction l as [|(k', v') l IH]; simpl; intros Hnd Hin; [destruct Hin|].
  inversion Hnd as [|? ? Hnot Hnd']; subst.
  destruct Hin as [E|Hin].
  - injection E as -> ->. rewrite str_eqb_refl. reflexivity.
  - str_cases k' k.
    + exfalso. apply Hnot. subst k'. apply (in_map fst) in Hin. exact Hin.
    + apply IH; assumption.
Qed.

Lemma distinct_NoDup l : NoDup l -> distinct l = true.
Proof.
  induction 1 as [|s l Hs _ IH]; simpl; [reflexivity|].
  rewrite IH, andb_true_r. apply negb_true_iff.
  destruct (existsb (str_eqb s) l) eqn:E; [|reflexivity].
  apply existsb_str_In in E. contradiction.
Qed.

Lemma stripPrefix_app p s : stripPrefix p (p ++ s) = Some s.
Proof.
  induction p as [|c p IH]; simpl; [destruct s; reflexivity|].
  rewrite N.eqb_refl. exact IH.
Qed.

Lemma letter_class c :
  (isLower c || isUpper c)%bool = true ->
  isLineTerminator c = false /\ isWhiteSpace c = false /\ isDigit c = false.
Proof.
  unfold isLower, isUpper, isDigit, isLineTerminator, isWhiteSpace, inRange.
  rewrite orb_true_iff, !andb_true_iff, !N.leb_le. intros H.
  assert (Hr : (65 <= c <= 122)%N) by lia.
  repeat split.
  - cbn [existsb].
    repeat match goal with
           | |- context [N.eqb c ?k] => rewrite (proj2 (N.eqb_neq c k)) by lia
           end.
    reflexivity.
  - cbn [existsb].
    repeat match goal with
           | |- context [N.eqb c ?k] => rewrite (proj2 (N.eqb_neq c k)) by lia
           end.
    cbn [orb]. apply andb_false_iff. left. apply N.leb_gt. lia.
  - apply andb_false_iff. destruct H as [H|H].
    + right. apply N.leb_gt. lia.
    + right. apply N.leb_gt. lia.
Qed.

Lemma takeWhile_all p s : forallb p s = true -> takeWhile p s = (s, []).
Proof.
  induction s as [|c s IH]; simpl; [reflexivity|].
  intros H. apply andb_true_iff in H. destruct H as (Hc & Hs).
  rewrite Hc, (IH Hs). reflexivity.
Qed.

(** A plain name is lexed as one identifier. *)
Lemma lex_name s :
  plainParam s = true -> lex (S (length s)) s = Some [TId s].
Proof.
  unfold plainParam. intros H.
  apply andb_true_iff in H. destruct H as (H & _).
  apply andb_true_iff in H. destruct H as (Hstart & Hall).
  destruct s as [|c s]; [discriminate|]. cbn [startsWith] in Hstart.
  destruct (letter_class c Hstart) as (H1 & H2 & H3).
  cbn [lex length]. rewrite H1, H2, H3, Hstart.
  rewrite (takeWhile_all isIdentPart (c :: s) Hall). reflexivity.
Qed.

Lemma plainParam_formula s : plainParam s = true -> formulaRegExpTest s = true.
Proof.
  unfold plainParam, formulaRegExpTest. intros H.
  apply andb_true_iff in H. destruct H as (H & _).
  apply andb_true_iff in H. destruct H as (Hstart & Hall).
  destruct s as [|c s]; [discriminate|].
  apply forallb_forall. intros d Hd.
  rewrite forallb_forall in Hall. specialize (Hall d Hd).
  unfold isIdentPart in Hall. unfold formulaChar. rewrite Hall. reflexivity.
Qed.

(** The numbers 0 to 100 printed by [toFixed(2)], checked one by one. *)
Lemma toFixed_score z :
  0 <= z <= 100 ->
  isNaN (floatOfZ z) = false /\ toFixed (floatOfZ z) 2 = Some (decimal z ++ js ".00").
Proof.
  intros Hz.
  assert (Hall : forallb
            (fun n => let z := Z.of_nat n in
               negb (isNaN (floatOfZ z))
               && match toFixed (floatOfZ z) 2 with
                  | Some s => str_eqb s (decimal z ++ js ".00")
                  | None => false
                  end)%bool
            (seq 0 101) = true) by (vm_compute; reflexivity).
  rewrite forallb_forall in Hall.
  assert (Hin : In (Z.to_nat z) (seq 0 101)) by (apply in_seq; lia).
  apply Hall in Hin. cbv beta zeta in Hin. rewrite Z2Nat.id in Hin by lia.
  apply andb_true_iff in Hin. destruct Hin as (Hnan & Hfix).
  apply negb_true_iff in Hnan. split; [exact Hnan|].
  destruct (toFixed (floatOfZ z) 2) as [s|]; [|discriminate].
  apply str_eqb_eq in Hfix. rewrite Hfix. reflexivity.
Qed.

Lemma namedScores_In ws v :
  In v ws -> type v = Score -> name v <> [] -> In v (namedScores ws).
Proof.
  intros Hv Ht Hn. unfold namedScores. apply filter_In. split; [exact Hv|].
  rewrite Ht. simpl. apply negb_true_iff, str_eqb_neq. exact Hn.
Qed.

Lemma namedScores_spec ws u :
  In u (namedScores ws) <-> In u ws /\ type u = Score /\ name u <> [].
Proof.
  unfold namedScores. rewrite filter_In, andb_true_iff, negb_true_iff, str_eqb_neq.
  destruct (type u); simpl; intuition congruence.
Qed.

Lemma lowercase_identifierName s :
  s <> [] -> forallb isLower s = true -> identifierName s = true.
Proof.
  intros Hne Hall. unfold identifierName. destruct s as [|c s]; [congruence|].
  apply andb_true_iff. split.
  - simpl in *. apply andb_true_iff in Hall. rewrite (proj1 Hall). reflexivity.
  - apply forallb_forall. intros d Hd. rewrite forallb_forall in Hall.
    unfold isIdentPart. rewrite (Hall d Hd). reflexivity.
Qed.

Lemma isReserved_spec s : isReserved s = true <-> In s reservedWords.
Proof. apply existsb_str_In. Qed.

(** The parameter list that the result line hands to the constructor is
    made of distinct names. *)
Lemma formulaVariables_params ws :
  NoDup (map name (namedScores ws)) ->
  (forall u, In u (namedScores ws) -> forallb isLower (name u) = true) ->
  let entries := map (fun w => (name w, scoreValue (score w))) (namedScores ws) in
  formulaVariables ws = entries /\
  map fst entries = map name (namedScores ws) /\
  (negb (forallb identifierName (map fst entries) && distinct (map fst entries)
         && Nat.eqb (length (map fst entries)) (length (map snd entries))))%bool
  = false.
Proof.
  intros Hnd Hlow entries.
  assert (Hkeys : map fst entries = map name (namedScores ws)).
  { unfold entries. rewrite map_map. reflexivity. }
  split; [|split; [exact Hkeys|]].
  - unfold formulaVariables. apply fromEntries_distinct. rewrite Hkeys. exact Hnd.
  - apply negb_false_iff. rewrite !andb_true_iff. split; [split|].
    + rewrite Hkeys. apply forallb_forall. intros s Hs.
      apply in_map_iff in Hs. destruct Hs as (u & <- & Hu).
      apply lowercase_identifierName; [|auto].
      apply namedScores_spec in Hu. tauto.
    + apply distinct_NoDup. rewrite Hkeys. exact Hnd.
    + rewrite !length_map. apply Nat.eqb_refl.
Qed.

(** X22: when the named score widgets have distinct names in lower-case
    letters, none of them a reserved word, a calculator whose formula is
    the name of one of them shows that widget's score with ".00" behind
    it (0 when the score is NaN), and a calculator with an empty formula
    shows "0.00". *)
Theorem result_line_shows_a_named_score
    (ws : list Widget) (c v : Widget) :
  NoDup (map name (namedScores ws)) ->
  (forall u, In u (namedScores ws) ->
     forallb isLower (name u) = true /\ ~ In (name u) reservedWords) ->
  In v ws -> type v = Score -> name v <> [] ->
  match score v with Int z => 0 <= z <= 100 | NaN => True end ->
  (formula c = name v ->
   resultLine ws c
   = Some (decimal (match score v with Int z => z | NaN => 0 end) ++ js ".00")) /\
  (formula c = [] -> resultLine ws c = Some (js "0.00")).
Proof.
  intros Hnd Hnames Hv Ht Hn Hs.
  destruct (formulaVariables_params ws Hnd (fun u Hu => proj1 (Hnames u Hu)))
    as (Hvars & Hkeys & Hparams).
  set (entries := map (fun w => (name w, scoreValue (score w))) (namedScores ws)) in *.
  assert (Hfree : existsb isReserved (map fst entries) = false).
  { destruct (existsb isReserved (map fst entries)) eqn:E; [|reflexivity].
    apply existsb_exists in E. destruct E as (k & Hk & Hres).
    rewrite Hkeys in Hk. apply in_map_iff in Hk. destruct Hk as (u & <- & Hu).
    apply isReserved_spec in Hres. destruct (Hnames u Hu) as (_ & Hno).
    contradiction. }
  assert (Hnamed : In v (namedScores ws)) by (apply namedScores_spec; auto).
  split.
  - intros Hf. unfold resultLine, evaluateFormula, evaluateFormulaWith.
    rewrite Hvars, Hf.
    destruct (name v) as [|c0 s0] eqn:En; [congruence|]. rewrite <- En in *.
    assert (Hp : plainParam (name v) = true).
    { unfold plainParam. destruct (Hnames v Hnamed) as (Hlow & Hno).
      rewrite (lowercase_identifierName _ Hn Hlow). apply negb_true_iff.
      destruct (isReserved (name v)) eqn:E; [|reflexivity].
      apply isReserved_spec in E. contradiction. }
    rewrite (plainParam_formula _ Hp). cbn [negb].
    unfold arithFunction. rewrite Hparams, Hfree, stripPrefix_app, (lex_name _ Hp).
    cbn [parseExpression length Nat.mul Nat.add parseLevel parseRest].
    cbn [evalExpr]. rewrite combine_fst_snd.
    rewrite (lookupArg_In entries (name v) (scoreValue (score v))).
    + destruct (score v) as [z|]; simpl scoreValue.
      * destruct (toFixed_score z Hs) as (Hnan & Hfix). rewrite Hnan. exact Hfix.
      * destruct (toFixed_score 0 ltac:(lia)) as (Hnan & Hfix).
        rewrite Hnan. exact Hfix.
    + rewrite Hkeys. exact Hnd.
    + unfold entries. apply in_map_iff. exists v. split; [reflexivity|exact Hnamed].
  - intros Hf. unfold resultLine, evaluateFormula, evaluateFormulaWith.
    rewrite Hvars, Hf. change (formulaRegExpTest (js "0")) with true. cbn [negb].
    unfold arithFunction. rewrite Hparams, Hfree, stripPrefix_app.
    reflexivity.
Qed.

Lemma result_line_shows_a_named_score_witness :
  let ws := [withScore (sampleScore 1000 "set" 0 0) (Int 7);
             sampleCalculator 2000 0 1;
             withScore (sampleScore 3000 "dog" 2 0) NaN] in
  resultLine ws (withFormula (sampleCalculator 2000 0 1) (js "set")) = Some (js "7.00") /\
  resultLine ws (sampleCalculator 2000 0 1) = Some (js "0.00").
Proof.
  intros ws.
  assert (Hnd : NoDup (map name (namedScores ws))).
  { vm_compute. constructor; [|constructor; [|constructor]]; simpl; intuition discriminate. }
  assert (Hnames : forall u, In u (namedScores ws) ->
            forallb isLower (name u) = true /\ ~ In (name u) reservedWords).
  { intros u [<-|[<-|[]]]; (split; [vm_compute; reflexivity|]);
      intros H; apply isReserved_spec in H; vm_compute in H; discriminate. }
  destruct (result_line_shows_a_named_score ws
              (withFormula (sampleCalculator 2000 0 1) (js "set"))
              (withScore (sampleScore 1000 "set" 0 0) (Int 7)) Hnd Hnames)
    as (Hname & _);
    [left; reflexivity | reflexivity | vm_compute; discriminate | simpl; lia |].
  destruct (result_line_shows_a_named_score ws (sampleCalculator 2000 0 1)
              (withScore (sampleScore 1000 "set" 0 0) (Int 7)) Hnd Hnames)
    as (_ & Hempty);
    [left; reflexivity | reflexivity | vm_compute; discriminate | simpl; lia |].
  split; [apply Hname; reflexivity | apply Hempty; reflexivity].
Defined.

(** X24: when the named score widgets have distinct names in lower-case
    letters and one of them is a reserved word such as "if" or "do", the
    [Function] constructor throws on the parameter list and every
    calculator shows the error marker, whatever its formula. *)
Theorem reserved_name_breaks_every_calculator
    (ws : list Widget) (c u : Widget) :
  NoDup (map name (namedScores ws)) ->
  (forall v, In v (namedScores ws) -> forallb isLower (name v) = true) ->
  In u ws -> type u = Score -> In (name u) reservedWords ->
  resultLine ws c = Some ErrorMarker.
Proof.
  intros Hnd Hlow Hu Ht Hres.
  destruct (formulaVariables_params ws Hnd Hlow) as (Hvars & Hkeys & Hparams).
  set (entries := map (fun w => (name w, scoreValue (score w))) (namedScores ws)) in *.
  assert (Hne : name u <> []).
  { intros E. rewrite E in Hres. apply isReserved_spec in Hres.
    vm_compute in Hres. discriminate. }
  assert (Hthrows : existsb isReserved (map fst entries) = true).
  { apply existsb_exists. exists (name u). split.
    - rewrite Hkeys. apply in_map. apply namedScores_spec. auto.
    - apply isReserved_spec. exact Hres. }
  unfold resultLine, evaluateFormula, evaluateFormulaWith. rewrite Hvars.
  destruct (negb (formulaRegExpTest _)); [reflexivity|].
  unfold arithFunction. rewrite Hparams, Hthrows. reflexivity.
Qed.

Lemma reserved_name_breaks_every_calculator_witness :
  let ws := [withScore (sampleScore 1000 "cat" 0 0) (Int 7);
             sampleCalculator 2000 0 1;
             sampleScore 3000 "if" 2 0] in
  resultLine ws (withFormula (sampleCalculator 2000 0 1) (js "cat + 1"))
  = Some ErrorMarker.
Proof.
  intros ws.
  apply (reserved_name_breaks_every_calculator ws _ (sampleScore 3000 "if" 2 0)).
  - vm_compute. constructor; [|constructor; [|constructor]]; simpl; intuition discriminate.
  - intros v [<-|[<-|[]]]; vm_compute; reflexivity.
  - right; right; left. reflexivity.
  - reflexivity.
  - apply isReserved_spec. vm_compute. reflexivity.
Defined.
